(** * Fast GitHub Pages generator: a shallow embedding of
    [fast_github_pages_generator.py] and the properties of its
    path relativizer, its tree walker and its command line.

    Text is modelled as [string] (a sequence of bytes, UTF-8 encoded as
    the program's own literals are), a [pathlib] path by the list of
    its [parts] (so [Path(".")] is the empty list), the source tree by
    an inductive type of files and directories, and the output
    directory by a finite map from paths (relative to the output root)
    to entries. *)

From Stdlib Require Import Ascii String List Arith Lia Bool.
From stdpp Require Import base option list strings gmap fin_maps sorting.

(** ** Text primitives *)

Module Text.

(** The double quote character, which the program's f-strings emit
    around attribute values. *)
Definition dq : string := String (ascii_of_nat 34) EmptyString.

(** [str.startswith] *)
Definition startswith (s pre : string) : bool := String.prefix pre s.

(** [str.endswith]: [suf] is [s] or a suffix of its tail. *)
Fixpoint endswith (s suf : string) : bool :=
  String.eqb s suf ||
  match s with
  | EmptyString => false
  | String _ s' => endswith s' suf
  end.

(** [str.lower] and [str.upper] on the ASCII letters. *)
Definition lower_ascii (c : ascii) : ascii :=
  let n := nat_of_ascii c in
  if (65 <=? n) && (n <=? 90) then ascii_of_nat (n + 32) else c.

Definition upper_ascii (c : ascii) : ascii :=
  let n := nat_of_ascii c in
  if (97 <=? n) && (n <=? 122) then ascii_of_nat (n - 32) else c.

Fixpoint map_string (f : ascii → ascii) (s : string) : string :=
  match s with
  | EmptyString => EmptyString
  | String c s' => String (f c) (map_string f s')
  end.

Definition lower : string → string := map_string lower_ascii.
Definition upper : string → string := map_string upper_ascii.

(** [str.replace] of one character by another. *)
Definition replace_char (a b : ascii) : string → string :=
  map_string (λ c, if Ascii.eqb c a then b else c).

Definition is_alpha (c : ascii) : bool :=
  let n := nat_of_ascii c in
  ((65 <=? n) && (n <=? 90)) || ((97 <=? n) && (n <=? 122)).

(** [str.title] on ASCII text: a letter that follows a non-letter is
    upper-cased, every other letter is lower-cased. *)
Fixpoint title_go (prev_cased : bool) (s : string) : string :=
  match s with
  | EmptyString => EmptyString
  | String c s' =>
      String (if is_alpha c
              then (if prev_cased then lower_ascii c else upper_ascii c)
              else c)
             (title_go (is_alpha c) s')
  end.

Definition title : string → string := title_go false.

(** [sep.join(items)] is [String.concat sep items]. *)
Definition join (sep : string) (items : list string) : string :=
  String.concat sep items.

(** [s.split(sep)] for a one-character separator: the maximal runs
    between separators, an empty string included. *)
Fixpoint split_on (sep : ascii) (s : string) : list string :=
  match s with
  | EmptyString => [EmptyString]
  | String c s' =>
      if Ascii.eqb c sep then EmptyString :: split_on sep s'
      else match split_on sep s' with
           | w :: ws => String c w :: ws
           | [] => [String c EmptyString]
           end
  end.

(** [a in s] for a character [a]. *)
Fixpoint contains_char (a : ascii) (s : string) : bool :=
  match s with
  | EmptyString => false
  | String c s' => Ascii.eqb c a || contains_char a s'
  end.

(** [str.rfind(".")], with [None] for Python's [-1]. *)
Fixpoint rfind_dot (s : string) : option nat :=
  match s with
  | EmptyString => None
  | String c s' =>
      match rfind_dot s' with
      | Some i => Some (S i)
      | None => if Ascii.eqb c "." then Some 0 else None
      end
  end.

End Text.

Import Text.

(** ** Paths *)

Module PurePath.

(** A path is the tuple of its [parts]; [Path(".")] has none. *)
Abbreviation path := (list string).

Definition dot : path := [].

(** [p / q] for a relative [q]. *)
Definition joinpath (p q : path) : path := p ++ q.

(** [Path(text)]: the parts of a path written with "/" separators;
    empty and "." components vanish and a leading "/" is the anchor,
    kept as a part of its own. *)
Definition Path (text : string) : path :=
  (if startswith text "/" then ["/"] else []) ++
  filter (λ seg, seg ≠ "" ∧ seg ≠ ".") (split_on "/" text).

(** [Path.name]: the last part, or the empty string when there is
    none. *)
Definition name (p : path) : string := List.last p "".

(** [Path.parent]: the path without its last part. *)
Definition parent (p : path) : path := removelast p.

(** [Path.parents]: the proper prefixes, longest first. *)
Definition parents (p : path) : list path :=
  (λ n, take n p) <$> reverse (seq 0 (length p)).

(** [PurePath.suffix] of a file name: the text from the last dot on,
    when that dot is neither the first nor the last character. *)
Definition suffix (nm : string) : string :=
  match rfind_dot nm with
  | Some i =>
      if (0 <? i) && (i <? String.length nm - 1)
      then substring i (String.length nm - i) nm
      else ""
  | None => ""
  end.

(** [PurePath.stem] of a file name: the name without its suffix. *)
Definition stem (nm : string) : string :=
  match rfind_dot nm with
  | Some i =>
      if (0 <? i) && (i <? String.length nm - 1)
      then substring 0 i nm
      else nm
  | None => nm
  end.

End PurePath.

Import PurePath.

(** ** The generator object and its path relativizer *)

(** The fields [__init__] sets. *)
Record FastSiteGenerator := {
  source_dir : path;
  output_dir : path;
  format_markdown : bool;
  markdown_extensions : list string
}.

Definition new_generator (source output : path) (fmt : bool) : FastSiteGenerator :=
  {| source_dir := source; output_dir := output; format_markdown := fmt;
     markdown_extensions := ["toc"; "tables"; "fenced_code"; "codehilite"] |}.

(** [get_relative_path_to_root] *)
Definition get_relative_path_to_root (current_path : path) : string :=
  if decide (current_path = dot) then "."
  else
    let depth := length current_path in
    if 0 <? depth then join "/" (replicate depth "..") else ".".

(** [enumerate(parts)] *)
Definition enumerate (parts : list string) : list (nat * string) :=
  zip (seq 0 (length parts)) parts.

(** The text one round of the loop of [create_breadcrumb] appends. *)
Definition crumb_html (href label : string) : string :=
  " <span style=" +:+ dq +:+ "color: #64748b;" +:+ dq +:+ ">/</span> <a href="
    +:+ dq +:+ href +:+ dq +:+ ">" +:+ label +:+ "</a>".

Definition home_html (path_to_root : string) : string :=
  "<a href=" +:+ dq +:+ path_to_root +:+ "/index.html" +:+ dq +:+ ">🏠 Home</a>".

(** [create_breadcrumb] *)
Definition create_breadcrumb (current_path : path) : string :=
  let path_to_root := get_relative_path_to_root current_path in
  let breadcrumb := home_html path_to_root in
  if decide (current_path = dot) then breadcrumb
  else
    let parts := current_path in
    fold_left
      (λ breadcrumb '(i, part),
         let levels_up := length parts - i - 1 in
         let href :=
           if 0 <? levels_up
           then join "/" (replicate levels_up "..") +:+ "/index.html"
           else "index.html" in
         breadcrumb +:+ crumb_html href part)
      (enumerate parts) breadcrumb.

(** *** The relativizer as the specification words it

    [root_relative_prefix] takes a depth, and a breadcrumb trail is a
    sequence of (label, link) pairs; both are compared with the code
    above. *)

Definition root_relative_prefix (d : nat) : string :=
  match d with
  | 0 => "."
  | S _ => join "/" (replicate d "..")
  end.

Record crumb := { label : string; link : string }.

Definition home_crumb (depth : nat) : crumb :=
  {| label := "🏠 Home"; link := root_relative_prefix depth +:+ "/index.html" |}.

(** The link from a node of [n] segments to its ancestor at position
    [i]: [n - 1 - i] levels up. *)
Definition ancestor_link (n i : nat) : string :=
  match n - 1 - i with
  | 0 => "index.html"
  | S _ as up => join "/" (replicate up "..") +:+ "/index.html"
  end.

Definition breadcrumb_trail (p : path) : list crumb :=
  home_crumb (length p) ::
  imap (λ i s, {| label := s; link := ancestor_link (length p) i |}) p.

Definition render_crumb (first : bool) (c : crumb) : string :=
  if first then "<a href=" +:+ dq +:+ link c +:+ dq +:+ ">" +:+ label c +:+ "</a>"
  else crumb_html (link c) (label c).

Definition render_trail (t : list crumb) : string :=
  match t with
  | [] => ""
  | h :: rest =>
      fold_left (λ acc c, acc +:+ render_crumb false c) rest (render_crumb true h)
  end.

(** ** Outcomes of fallible steps *)

(** A step returns a value or raises an exception, kept as the text its
    report prints. *)
Inductive result (A : Type) : Type :=
| Ok (a : A)
| Raise (e : string).

Arguments Ok {A} a.
Arguments Raise {A} e.

Global Instance result_bind : MBind result :=
  λ A B k r, match r with
             | Ok a => k a
             | Raise e => Raise e
             end.

(** ** Reading text: UTF-8 with an error handler

    [open(md_path, "r", encoding="utf-8", errors=...)] followed by
    [read()]. The decoded text is kept in its UTF-8 encoding, so a
    well-formed sequence is copied and an ill-formed one is either an
    error ([Strict]) or left out ([Ignore]). An ill-formed sequence
    ends before the first byte that cannot continue it; input that
    stops in the middle of a sequence is ill-formed to its end. *)

Module Utf8.

Inductive error_handler := Strict | Ignore.

Definition byte_in (lo hi : nat) (c : ascii) : bool :=
  let n := nat_of_ascii c in (lo <=? n) && (n <=? hi).

Definition is_cont : ascii → bool := byte_in 128 191.

(** The range of the second byte after lead byte [b0] of a three- or
    four-byte sequence (overlong forms, surrogates and code points past
    U+10FFFF are ill-formed). *)
Definition second_ok (b0 b1 : ascii) : bool :=
  match nat_of_ascii b0 with
  | 224 => byte_in 160 191 b1
  | 237 => byte_in 128 159 b1
  | 240 => byte_in 144 191 b1
  | 244 => byte_in 128 143 b1
  | _ => is_cont b1
  end.

Definition on_error (h : error_handler) (resume : result string) : result string :=
  match h with
  | Strict => Raise "UnicodeDecodeError"
  | Ignore => resume
  end.

Definition emit (seq : string) (rest : result string) : result string :=
  match rest with
  | Ok s => Ok (seq +:+ s)
  | Raise e => Raise e
  end.

Fixpoint decode (h : error_handler) (bs : string) : result string :=
  match bs with
  | EmptyString => Ok ""
  | String b0 r0 =>
    if byte_in 0 127 b0 then emit (String b0 "") (decode h r0)
    else if byte_in 194 223 b0 then
      match r0 with
      | EmptyString => on_error h (Ok "")
      | String b1 r1 =>
        if is_cont b1 then emit (String b0 (String b1 "")) (decode h r1)
        else on_error h (decode h r0)
      end
    else if byte_in 224 239 b0 then
      match r0 with
      | EmptyString => on_error h (Ok "")
      | String b1 r1 =>
        if second_ok b0 b1 then
          match r1 with
          | EmptyString => on_error h (Ok "")
          | String b2 r2 =>
            if is_cont b2
            then emit (String b0 (String b1 (String b2 ""))) (decode h r2)
            else on_error h (decode h r1)
          end
        else on_error h (decode h r0)
      end
    else if byte_in 240 244 b0 then
      match r0 with
      | EmptyString => on_error h (Ok "")
      | String b1 r1 =>
        if second_ok b0 b1 then
          match r1 with
          | EmptyString => on_error h (Ok "")
          | String b2 r2 =>
            if is_cont b2 then
              match r2 with
              | EmptyString => on_error h (Ok "")
              | String b3 r3 =>
                if is_cont b3
                then emit (String b0 (String b1 (String b2 (String b3 ""))))
                          (decode h r3)
                else on_error h (decode h r2)
              end
            else on_error h (decode h r1)
          end
        else on_error h (decode h r0)
      end
    else on_error h (decode h r0)
  end.

End Utf8.

(** ** The source tree *)

(** A file carries what reading its bytes gives: the bytes, or the
    error [open] or [read] raises. *)
Inductive node :=
| File (name : string) (data : result string)
| Dir (name : string) (children : list node).

Definition node_name (n : node) : string :=
  match n with
  | File nm _ => nm
  | Dir nm _ => nm
  end.

Definition is_dir (n : node) : bool :=
  match n with
  | File _ _ => false
  | Dir _ _ => true
  end.

(** The non-directory entries of a directory, as [os.walk] lists them,
    each with what reading it gives. *)
Definition files_of (children : list node) : list (string * result string) :=
  omap (λ n, match n with
             | File nm d => Some (nm, d)
             | Dir _ _ => None
             end) children.

(** [os.walk(top)], top-down: a directory, then the walks of its
    subdirectories in turn. A directory is given by its path relative
    to [top] and its entries. *)
Fixpoint walk_node (rel : path) (n : node) : list (path * list node) :=
  match n with
  | File _ _ => []
  | Dir nm ch => (rel ++ [nm], ch) :: concat (map (walk_node (rel ++ [nm])) ch)
  end.

Definition os_walk (top : list node) : list (path * list node) :=
  (dot, top) :: concat (map (walk_node dot) top).

(** ** The output directory *)

Inductive entry :=
| EFile (content : string)
| EDir.

(** What one step of the walk did: each event is also the line the
    program prints for it. *)
Inductive event :=
| PageWritten (rel_file target : path)
| PageFailed (rel_file : path) (cause : string)
| IndexWritten (rel target : path)
| IndexFailed (rel : path) (cause : string).

Record world := {
  fs : gmap path entry;
  trace : list event
}.

(** How a run ends: the walk finished, or an exception left it. *)
Inductive run :=
| Completed (w : world)
| Aborted (w : world) (e : string).

Definition final (r : run) : world :=
  match r with
  | Completed w => w
  | Aborted w _ => w
  end.

(** [str(path)] *)
Definition path_str (p : path) : string :=
  match p with
  | [] => "."
  | _ => join "/" p
  end.

(** The console line of an event. *)
Definition report (ev : event) : string :=
  match ev with
  | PageWritten rel_file _ => "✅ " +:+ path_str rel_file
  | PageFailed rel_file e =>
      "⚠️ Error processing " +:+ path_str rel_file +:+ ": " +:+ e
  | IndexWritten rel _ => "📂 " +:+ path_str rel +:+ "/"
  | IndexFailed rel e =>
      "⚠️ Error creating directory listing for " +:+ path_str rel +:+ ": " +:+ e
  end.

(** [Path.mkdir(parents=True, exist_ok=True)]: an existing directory
    is accepted, an existing file is an error, a missing parent is
    created first. [n] bounds the number of missing ancestors. *)
Fixpoint mkdir_parents (n : nat) (m : gmap path entry) (p : path)
  : result (gmap path entry) :=
  match m !! p with
  | Some EDir => Ok m
  | Some (EFile _) => Raise "FileExistsError"
  | None =>
      match m !! parent p with
      | Some EDir => Ok (<[p := EDir]> m)
      | Some (EFile _) => Raise "NotADirectoryError"
      | None =>
          match n with
          | 0 => Raise "FileNotFoundError"
          | S n' =>
              m' ← mkdir_parents n' m (parent p);
              Ok (<[p := EDir]> m')
          end
      end
  end.

(** ** The generator *)

(** The template of [get_html_template] is a fixed text with five
    slots; it is kept as the six pieces of text around them, in the
    order the slots occur: title, home_path, breadcrumb, content,
    timestamp. *)
Record template := {
  t_head : string;
  t_home : string;
  t_breadcrumb : string;
  t_content : string;
  t_timestamp : string;
  t_tail : string
}.

(** What a run takes from outside the program: the template text, the
    Markdown engine ([markdown.Markdown(extensions).convert], which may
    raise), the error, if any, that writing a given output file raises
    for a reason of the file system's own (permissions, a full disk),
    and the clock read when the page for a source path is rendered. *)
Record environment := {
  tpl : template;
  convert : list string → string → result string;
  write_error : path → option string;
  now : path → string
}.

(** An entry of a directory listing: the dictionaries the listing
    builder collects. *)
Record listing_entry := {
  e_name : string;
  e_path : string;
  e_type : string
}.

(** The order of [sorted(dir_path.iterdir())]: entries of one
    directory compare by name. *)
Definition node_le (a b : node) : Prop := String.le (node_name a) (node_name b).

Global Instance node_le_dec : RelDecision node_le.
Proof. intros a b. unfold node_le. apply _. Defined.

Definition nl : string := String (ascii_of_nat 10) EmptyString.

Section Generator.

Variable env : environment.
Variable self : FastSiteGenerator.

(** [get_html_template().format(...)] *)
Definition render_page (title breadcrumb content timestamp home_path : string)
  : string :=
  t_head (tpl env) +:+ title +:+ t_home (tpl env) +:+ home_path
    +:+ t_breadcrumb (tpl env) +:+ breadcrumb
    +:+ t_content (tpl env) +:+ content
    +:+ t_timestamp (tpl env) +:+ timestamp +:+ t_tail (tpl env).

(** [format_markdown_file]: formatting is disabled, whatever the
    generator's flag says. *)
Definition format_markdown_file (md_name : string) : bool := true.

(** [process_markdown]: [data] is what reading [md_path] gives and
    [md_name] is the name of [md_path]. *)
Definition process_markdown (data : result string) (md_name : string)
    (relative_path : path) : result string :=
  let _ := format_markdown_file md_name in
  bytes ← data;
  content ← Utf8.decode Utf8.Ignore bytes;
  html_content ← convert env (markdown_extensions self) content;
  let parent_path := parent relative_path in
  let path_to_root := get_relative_path_to_root parent_path in
  let home_path := path_to_root +:+ "/index.html" in
  let breadcrumb := create_breadcrumb parent_path in
  Ok (render_page (stem md_name) breadcrumb html_content
        (now env relative_path) home_path).

(** The test that opens the loop of [create_directory_listing]. *)
Definition listing_skips (item_name : string) : bool :=
  startswith item_name "." || String.eqb item_name (name (output_dir self)).

(** One round of that loop, on the lists [(dirs, files)]. *)
Definition listing_step (acc : list listing_entry * list listing_entry)
    (item : node) : list listing_entry * list listing_entry :=
  let '(dirs, files) := acc in
  if listing_skips (node_name item) then acc
  else if is_dir item then
    (dirs ++ [{| e_name := node_name item;
                 e_path := node_name item +:+ "/index.html";
                 e_type := "📁 Directory" |}], files)
  else if bool_decide (lower (suffix (node_name item)) ∈ [".md"; ".txt"]) then
    (dirs, files ++ [{| e_name := node_name item;
                        e_path := stem (node_name item) +:+ ".html";
                        e_type := "📄 " +:+ upper (suffix (node_name item))
                                    +:+ " File" |}])
  else acc.

Definition listing_entries (items : list node)
  : list listing_entry * list listing_entry :=
  fold_left listing_step (merge_sort node_le items) ([], []).

Definition card_html (href shown type : string) : string :=
  nl +:+ "                <div class=" +:+ dq +:+ "file-item" +:+ dq +:+ ">"
  +:+ nl +:+ "                    <a href=" +:+ dq +:+ href +:+ dq +:+ ">"
  +:+ shown +:+ "</a>"
  +:+ nl +:+ "                    <div class=" +:+ dq +:+ "file-type" +:+ dq
  +:+ ">" +:+ type +:+ "</div>"
  +:+ nl +:+ "                </div>".

(** [create_directory_listing]: [items] are the entries of [dir_path]. *)
Definition create_directory_listing (items : list node) (relative_path : path)
  : string :=
  let '(dirs, files) := listing_entries items in
  let title :=
    if decide (name relative_path ≠ "") then name relative_path
    else "Documentation" in
  let content :=
    "<h1>📚 " +:+ Text.title (replace_char "-" " " (replace_char "_" " " title))
      +:+ "</h1>" in
  let content := content +:+
    "<p style='color: #94a3b8; margin-bottom: 2rem;'>Browse through the available documentation files and folders.</p>" in
  let content :=
    match dirs, files with
    | [], [] =>
        content +:+ "<p style=" +:+ dq +:+ "color: #64748b;" +:+ dq
          +:+ ">No files found in this directory.</p>"
    | _, _ =>
        let content := content +:+ "<div class=" +:+ dq +:+ "file-list" +:+ dq
                         +:+ ">" in
        let content :=
          fold_left (λ content dir_info,
                       content +:+ card_html (e_path dir_info)
                                     (e_name dir_info +:+ "/") (e_type dir_info))
                    dirs content in
        let content :=
          fold_left (λ content file_info,
                       content +:+ card_html (e_path file_info)
                                     (e_name file_info) (e_type file_info))
                    files content in
        content +:+ "</div>"
    end in
  let path_to_root := get_relative_path_to_root relative_path in
  let home_path := path_to_root +:+ "/index.html" in
  let breadcrumb := create_breadcrumb relative_path in
  render_page
    (if decide (name relative_path ≠ "") then name relative_path else "Home")
    breadcrumb content (now env relative_path) home_path.

(** [open(target, "w")] and [write]: fails on a directory, under a
    missing parent, or for a reason of the environment's; a failed
    write leaves the output as it was. *)
Definition write_text (m : gmap path entry) (target : path) (content : string)
  : result (gmap path entry) :=
  match write_error env target with
  | Some e => Raise e
  | None =>
      match m !! target with
      | Some EDir => Raise "IsADirectoryError"
      | _ =>
          match m !! parent target with
          | Some EDir => Ok (<[target := EFile content]> m)
          | Some (EFile _) => Raise "NotADirectoryError"
          | None => Raise "FileNotFoundError"
          end
      end
  end.

(** The two tests by which the loop of [generate_site] skips a
    directory. *)
Definition excluded_part (part : string) : bool :=
  startswith part "." || String.eqb part (name (output_dir self)).

Definition skip_by_name (relative_path : path) : bool :=
  existsb excluded_part relative_path.

Definition skip_output (root_path : path) : bool :=
  bool_decide (root_path = output_dir self)
  || bool_decide (output_dir self ∈ parents root_path).

Definition skipped (relative_path : path) : bool :=
  skip_by_name relative_path
  || skip_output (joinpath (source_dir self) relative_path).

(** The extension test of the file loop. *)
Definition has_doc_extension (file : string) : bool :=
  endswith (lower file) ".md" || endswith (lower file) ".txt".

(** The paths the loop body computes. Output paths are kept relative
    to the output root, where the mirror [output_dir_path] of a
    directory is its [relative_path] itself. *)
Definition rel_file_path_of (relative_path : path) (file : string) : path :=
  if decide (relative_path ≠ dot) then joinpath relative_path [file]
  else [file].

Definition page_target (output_dir_path : path) (file : string) : path :=
  joinpath output_dir_path [stem file +:+ ".html"].

Definition index_target (output_dir_path : path) : path :=
  joinpath output_dir_path ["index.html"].

(** The body of the file loop. *)
Definition process_file (relative_path : path) (w : world)
    (f : string * result string) : world :=
  let '(file, data) := f in
  if startswith file "." then w
  else
    let rel_file_path := rel_file_path_of relative_path file in
    if has_doc_extension file then
      let output_dir_path := relative_path in
      let output_file := page_target output_dir_path file in
      match html_content ← process_markdown data file rel_file_path;
            write_text (fs w) output_file html_content with
      | Ok m =>
          {| fs := m; trace := trace w ++ [PageWritten rel_file_path output_file] |}
      | Raise e =>
          {| fs := fs w; trace := trace w ++ [PageFailed rel_file_path e] |}
      end
    else w.

(** The directory listing step that closes the loop body. *)
Definition write_index (relative_path : path) (items : list node) (w : world)
  : world :=
  let output_dir_path := relative_path in
  let dir_html := create_directory_listing items relative_path in
  let index_file := index_target output_dir_path in
  match write_text (fs w) index_file dir_html with
  | Ok m =>
      {| fs := m; trace := trace w ++ [IndexWritten relative_path index_file] |}
  | Raise e =>
      {| fs := fs w; trace := trace w ++ [IndexFailed relative_path e] |}
  end.

(** The body of the loop over [os.walk]. Only the creation of the
    mirrored directory is outside every [try]. *)
Definition visit (w : world) (item : path * list node) : result world :=
  let '(relative_path, items) := item in
  if skip_by_name relative_path then Ok w
  else if skip_output (joinpath (source_dir self) relative_path) then Ok w
  else
    let output_dir_path := relative_path in
    m ← mkdir_parents (length output_dir_path) (fs w) output_dir_path;
    let w := fold_left (process_file relative_path) (files_of items)
               {| fs := m; trace := trace w |} in
    Ok (write_index relative_path items w).

Fixpoint walk_loop (items : list (path * list node)) (w : world) : run :=
  match items with
  | [] => Completed w
  | item :: rest =>
      match visit w item with
      | Ok w' => walk_loop rest w'
      | Raise e => Aborted w e
      end
  end.

(** [generate_site]: [top] is the tree found under the source
    directory, [prior] what the output directory holds before the run.
    The output directory is emptied and created anew, the marker file
    is put in it and the walk starts. *)
Definition purged (prior : gmap path entry) : gmap path entry :=
  <[ [".nojekyll"] := EFile "" ]> (<[ dot := EDir ]> ∅).

Definition generate_site (top : list node) (prior : gmap path entry) : run :=
  walk_loop (os_walk top) {| fs := purged prior; trace := [] |}.

End Generator.

(** ** The command line *)

(** The three optional arguments of [main] and their defaults. *)
Definition parse_args (argv : list string) : string * string * bool :=
  let source_dir := if 1 <? length argv then nth 1 argv "" else "." in
  let output_dir := if 2 <? length argv then nth 2 argv "" else "docs" in
  let format_markdown :=
    if 3 <? length argv
    then negb (bool_decide (lower (nth 3 argv "") ∈ ["false"; "0"; "no"]))
    else true in
  (source_dir, output_dir, format_markdown).

(** [main]: the constructor creates the output directory when it is
    missing, which fails when a file has its place. *)
Definition main (env : environment) (argv : list string) (top : list node)
    (prior : gmap path entry) : run :=
  let '(source_dir, output_dir, format_markdown) := parse_args argv in
  let generator := new_generator (Path source_dir) (Path output_dir) format_markdown in
  match prior !! dot with
  | Some (EFile _) => Aborted {| fs := prior; trace := [] |} "FileExistsError"
  | _ => generate_site env generator top prior
  end.

(** *** The listing, entry by entry

    What one entry of a directory contributes to the two lists of the
    listing builder. *)

Definition listed_dir (self : FastSiteGenerator) (item : node)
  : option listing_entry :=
  if listing_skips self (node_name item) then None
  else if is_dir item then
    Some {| e_name := node_name item;
            e_path := node_name item +:+ "/index.html";
            e_type := "📁 Directory" |}
  else None.

Definition listed_file (self : FastSiteGenerator) (item : node)
  : option listing_entry :=
  if listing_skips self (node_name item) then None
  else if is_dir item then None
  else if bool_decide (lower (suffix (node_name item)) ∈ [".md"; ".txt"]) then
    Some {| e_name := node_name item;
            e_path := stem (node_name item) +:+ ".html";
            e_type := "📄 " +:+ upper (suffix (node_name item)) +:+ " File" |}
  else None.

(** The events of a page and of an index, and the directory an event
    belongs to. *)
Definition is_page_event (ev : event) : bool :=
  match ev with
  | PageWritten _ _ | PageFailed _ _ => true
  | IndexWritten _ _ | IndexFailed _ _ => false
  end.

Definition event_dir (ev : event) : path :=
  match ev with
  | PageWritten rel_file _ | PageFailed rel_file _ => parent rel_file
  | IndexWritten rel _ | IndexFailed rel _ => rel
  end.

Definition page_of (rel : path) (ev : event) : Prop :=
  is_page_event ev = true ∧ event_dir ev = rel.

Definition index_of (rel : path) (ev : event) : Prop :=
  is_page_event ev = false ∧ event_dir ev = rel.

(** No page event of a directory comes after an index event of that
    directory. *)
Fixpoint index_closes_pages (t : list event) : Prop :=
  match t with
  | [] => True
  | ev :: rest =>
      (is_page_event ev = false → Forall (λ pg, ¬ page_of (event_dir ev) pg) rest)
      ∧ index_closes_pages rest
  end.

(** *** What a step gives, as far as the file and the environment
    decide

    The attempt at the page of a file fails when reading, decoding or
    converting raises, or when the environment refuses the write; the
    attempt at an index page fails when the environment refuses the
    write. *)
Definition page_result (env : environment) (self : FastSiteGenerator)
    (rel : path) (file : string) (data : result string) : result string :=
  page ← process_markdown env self data file (rel_file_path_of rel file);
  match write_error env (page_target rel file) with
  | Some e => Raise e
  | None => Ok page
  end.

Definition index_result (env : environment) (self : FastSiteGenerator)
    (rel : path) (items : list node) : result string :=
  match write_error env (index_target rel) with
  | Some e => Raise e
  | None => Ok (create_directory_listing env self items rel)
  end.

(** The shape of an output directory: the root is a directory, a file
    is the marker file or a page (a name ending in ".html" that does
    not begin with ".") in a directory whose segments satisfy [P], and
    the segments of every directory satisfy [P]. *)
Definition shaped (P : string → Prop) (m : gmap path entry) : Prop :=
  m !! dot = Some EDir
  ∧ (∀ p c, m !! p = Some (EFile c) →
       p = [".nojekyll"]
       ∨ ∃ rel x, p = rel ++ [x] ∧ Forall P rel
                  ∧ endswith x ".html" = true ∧ startswith x "." = false)
  ∧ (∀ p, m !! p = Some EDir → Forall P p).

(** A segment that is neither hidden nor named like a page. *)
Definition plain_segment (seg : string) : Prop :=
  startswith seg "." = false ∧ endswith seg ".html" = false.

(** A later state of the output keeps the events, the files (maybe
    with new content) and the directories of an earlier one. *)
Definition extends (w w' : world) : Prop :=
  (∀ ev, ev ∈ trace w → ev ∈ trace w')
  ∧ (∀ p c, fs w !! p = Some (EFile c) → ∃ c', fs w' !! p = Some (EFile c'))
  ∧ (∀ p, fs w !! p = Some EDir → fs w' !! p = Some EDir).

(** No directory of the walk has a path segment that ends in ".html",
    the ending of every generated page. *)
Definition no_page_named_dirs (top : list node) : Prop :=
  Forall (λ item, Forall (λ seg, endswith seg ".html" = false) item.1)
         (os_walk top).

(** What the run owes a visible file with a documentation extension:
    the page and its report, or the report of its failure. *)
Definition file_done (env : environment) (self : FastSiteGenerator)
    (rel : path) (w : world) (f : string * result string) : Prop :=
  match page_result env self rel f.1 f.2 with
  | Ok _ =>
      PageWritten (rel_file_path_of rel f.1) (page_target rel f.1) ∈ trace w
      ∧ ∃ c, fs w !! page_target rel f.1 = Some (EFile c)
  | Raise e => PageFailed (rel_file_path_of rel f.1) e ∈ trace w
  end.

(** What the run owes a visited directory: that for each such file,
    and the same for the index page. *)
Definition dir_done (env : environment) (self : FastSiteGenerator)
    (rel : path) (items : list node) (w : world) : Prop :=
  (∀ file data, (file, data) ∈ files_of items →
     startswith file "." = false → has_doc_extension file = true →
     file_done env self rel w (file, data))
  ∧ match index_result env self rel items with
    | Ok _ =>
        IndexWritten rel (index_target rel) ∈ trace w
        ∧ ∃ c, fs w !! index_target rel = Some (EFile c)
    | Raise e => IndexFailed rel e ∈ trace w
    end.

(** *** One output per source node, as the specification words it

    Two distinct documentation files of a visited directory have
    distinct pages, and none of them has the page of the directory's
    index. *)
Definition one_output_per_source (self : FastSiteGenerator) (top : list node)
  : Prop :=
  ∀ rel items f1 d1 f2 d2,
    (rel, items) ∈ os_walk top → skipped self rel = false →
    (f1, d1) ∈ files_of items → (f2, d2) ∈ files_of items →
    startswith f1 "." = false → has_doc_extension f1 = true →
    startswith f2 "." = false → has_doc_extension f2 = true →
    f1 ≠ f2 →
    page_target rel f1 ≠ page_target rel f2
    ∧ page_target rel f1 ≠ index_target rel.

(** *** Segments of output paths and of links *)

(** A segment the walk lets through: not hidden and not named like
    the output directory. *)
Definition visible_segment (self : FastSiteGenerator) (seg : string) : Prop :=
  startswith seg "." = false ∧ seg ≠ name (output_dir self).

(** The segments of a link, and the names a directory can hold. *)
Definition link_segments (href : string) : list string := split_on "/" href.

Definition slash_free (nm : string) : Prop := contains_char "/" nm = false.

(** The claim on links as the specification words it: no segment of a
    link begins with ".". *)
Definition no_dot_segments (links : list string) : Prop :=
  Forall (λ href, Forall (λ seg, startswith seg "." = false)
                         (link_segments href)) links.

(** *** The exclusion rule as the specification words it

    A node is excluded when a segment of its path is hidden, or when
    it is the output directory or lies inside it. *)
Definition excluded_as_claimed (self : FastSiteGenerator) (rel : path) : Prop :=
  (∃ seg, seg ∈ rel ∧ startswith seg "." = true)
  ∨ output_dir self `prefix_of` joinpath (source_dir self) rel.

(** ** The attempts a walk owes

    An attempt is what an event is about: the page of a source file or
    the index of a directory, whatever the outcome. *)
Inductive attempt :=
| PageOf (rel_file : path)
| IndexOf (rel : path).

Definition attempt_of (ev : event) : attempt :=
  match ev with
  | PageWritten rel_file _ | PageFailed rel_file _ => PageOf rel_file
  | IndexWritten rel _ | IndexFailed rel _ => IndexOf rel
  end.

(** The files the file loop does not pass over, in the order of the
    directory. *)
Definition doc_files (items : list node) : list string :=
  omap (λ f : string * result string,
          if negb (startswith f.1 ".") && has_doc_extension f.1
          then Some f.1 else None)
       (files_of items).

(** The attempts of one directory of the walk. *)
Definition due_attempts (self : FastSiteGenerator) (item : path * list node)
  : list attempt :=
  if skipped self item.1 then []
  else (PageOf ∘ rel_file_path_of item.1 <$> doc_files item.2)
         ++ [IndexOf item.1].

(** The output path an event wrote, if it wrote one. *)
Definition written (ev : event) : option path :=
  match ev with
  | PageWritten _ target | IndexWritten _ target => Some target
  | PageFailed _ _ | IndexFailed _ _ => None
  end.

(** Every file of the output is accounted for: the marker file is
    there and empty, every other file was written by an event of the
    run, and what an event wrote is there. *)
Definition accounted (w : world) : Prop :=
  fs w !! [".nojekyll"] = Some (EFile "")
  ∧ (∀ p c, fs w !! p = Some (EFile c) →
       p = [".nojekyll"] ∨ ∃ ev, ev ∈ trace w ∧ written ev = Some p)
  ∧ (∀ ev p, ev ∈ trace w → written ev = Some p →
       ∃ c, fs w !! p = Some (EFile c)).

(** The directory an attempt belongs to. *)
Definition attempt_dir (a : attempt) : path :=
  match a with
  | PageOf rel_file => parent rel_file
  | IndexOf rel => rel
  end.

(** ** What a relative link points at

    A link on a page is followed from the directory of the page: "."
    stays there, ".." leaves the last directory (and leads out of the
    output tree when there is none), any other segment goes down. *)
Fixpoint resolve (base : path) (segments : list string) : option path :=
  match segments with
  | [] => Some base
  | seg :: rest =>
      if decide (seg = ".") then resolve base rest
      else if decide (seg = "..") then
        match base with
        | [] => None
        | _ :: _ => resolve (parent base) rest
        end
      else resolve (base ++ [seg]) rest
  end.

(** ** The structure of an output

    Two outputs have the same structure when the same paths are files
    and the same paths are directories in both, and the same events
    were reported; the contents of the files may differ. Two runs end
    alike when both complete or both abort with the same error. *)
Definition is_file (e : entry) : bool :=
  match e with
  | EFile _ => true
  | EDir => false
  end.

Definition same_structure (w1 w2 : world) : Prop :=
  trace w1 = trace w2
  ∧ ∀ p : path, is_file <$> fs w1 !! p = is_file <$> fs w2 !! p.

Definition end_alike (r1 r2 : run) : Prop :=
  match r1, r2 with
  | Completed _, Completed _ => True
  | Aborted _ e1, Aborted _ e2 => e1 = e2
  | _, _ => False
  end.

(** An event that wrote a page names the mirror of its source. *)
Definition mirrors_source (ev : event) : Prop :=
  match ev with
  | PageWritten rel_file target =>
      target = page_target (parent rel_file) (name rel_file)
  | IndexWritten rel target => target = index_target rel
  | PageFailed _ _ | IndexFailed _ _ => True
  end.

(** ** Well-formed trees

    In a file system the entries of one directory have pairwise
    distinct names. *)
Fixpoint unique_names_node (n : node) : Prop :=
  match n with
  | File _ _ => True
  | Dir _ ch =>
      NoDup (node_name <$> ch)
      ∧ fold_right (λ c rest, unique_names_node c ∧ rest) True ch
  end.

Definition unique_names (top : list node) : Prop :=
  NoDup (node_name <$> top)
  ∧ fold_right (λ c rest, unique_names_node c ∧ rest) True top.

(** ** Sample inputs

    A small environment and the source trees of the scenarios the
    properties are tried on. *)

Definition sample_template : template :=
  {| t_head := "<title>"; t_home := "</title><a href=";
     t_breadcrumb := "></a><nav>"; t_content := "</nav><main>";
     t_timestamp := "</main><footer>"; t_tail := "</footer>" |}.

Definition sample_env : environment :=
  {| tpl := sample_template;
     convert := λ _ text, Ok ("<p>" +:+ text +:+ "</p>");
     write_error := λ _, None;
     now := λ _, "2024-01-01 00:00:00" |}.

Definition sample_generator : FastSiteGenerator :=
  new_generator (Path ".") (Path "docs") true.

(** A byte that no UTF-8 sequence contains, followed by text. *)
Definition sample_bad_bytes : string := String (ascii_of_nat 255) "ok".

(** A directory called [docs] below the top: not the output directory
    of [sample_generator], only named like it. *)
Definition sample_nested_docs : list node :=
  [Dir "guide" [File "setup.md" (Ok "# Setup");
                Dir "docs" [File "api.md" (Ok "# API")]]].

(** The tree of the second end-to-end scenario, with a second file. *)
Definition sample_guide : list node :=
  [File "README.md" (Ok "# Read me");
   Dir "guide" [File "setup.md" (Ok "# Setup"); File "usage.txt" (Ok "Usage")]].

(** A file that cannot be read among files that can. *)
Definition sample_with_failure : list node :=
  [File "bad.md" (Raise "PermissionError");
   File "good.md" (Ok "# Good");
   Dir "guide" [File "setup.md" (Ok "# Setup")]].

(** Two files with one base name, and a file called like the index. *)
Definition sample_same_stem : list node :=
  [File "a.md" (Ok "# From md");
   File "a.txt" (Ok "From txt");
   File "index.md" (Ok "# Index")].

(** A generator whose output directory is named like a page. *)
Definition sample_generator_index : FastSiteGenerator :=
  new_generator (Path ".") (Path "index.html") true.

(** A directory named like the page of the file beside it. *)
Definition sample_clash : list node :=
  [File "x.md" (Ok "# X"); Dir "x.html" [File "y.md" (Ok "# Y")];
   Dir "later" [File "z.md" (Ok "# Z")]].

(** The sample environment at a later time, with another template. *)
Definition sample_env_later : environment :=
  {| tpl := {| t_head := "<html><title>"; t_home := "</title><a class=home href=";
               t_breadcrumb := "></a><div>"; t_content := "</div><article>";
               t_timestamp := "</article><small>"; t_tail := "</small></html>" |};
     convert := λ _ text, Ok ("<p>" +:+ text +:+ "</p>");
     write_error := λ _, None;
     now := λ _, "2025-06-30 12:00:00" |}.

(** * Properties *)

(** ** Facts about text *)

Section TextFacts.

Lemma app_String c s t : String c s +:+ t = String c (s +:+ t).
Proof. reflexivity. Qed.

Lemma app_empty_l s : "" +:+ s = s.
Proof. reflexivity. Qed.

Lemma app_empty_r s : s +:+ "" = s.
Proof. induction s as [|c s IH]; [done|]. by rewrite app_String, IH. Qed.

Lemma app_assoc_s s t u : (s +:+ t) +:+ u = s +:+ (t +:+ u).
Proof. induction s as [|c s IH]; [done|]. by rewrite !app_String, IH. Qed.

Lemma length_app_s s t :
  String.length (s +:+ t) = String.length s + String.length t.
Proof. induction s as [|c s IH]; [done|]. rewrite app_String. simpl. by rewrite IH. Qed.

Lemma app_inv_tail_s t : ∀ s1 s2, s1 +:+ t = s2 +:+ t → s1 = s2.
Proof.
  induction s1 as [|c s1 IH]; intros [|c2 s2] H; [done| | |].
  - apply (f_equal String.length) in H.
    rewrite app_empty_l, app_String in H. simpl in H.
    rewrite length_app_s in H. lia.
  - apply (f_equal String.length) in H.
    rewrite app_empty_l, app_String in H. simpl in H.
    rewrite length_app_s in H. lia.
  - rewrite !app_String in H. injection H as -> H. f_equal. by apply IH.
Qed.

Lemma split_on_nonempty sep s : split_on sep s ≠ [].
Proof.
  destruct s as [|c s]; simpl; [done|].
  destruct (Ascii.eqb c sep); [done|]. by destruct (split_on sep s).
Qed.

(** Splitting [w ++ sep ++ rest] when [w] is free of the separator. *)
Lemma split_on_app sep w rest :
  (∀ pre post, w ≠ pre +:+ String sep post) →
  split_on sep (w +:+ String sep rest) = w :: split_on sep rest.
Proof.
  induction w as [|c w IH]; intros Hfree.
  - rewrite app_empty_l. simpl. by rewrite Ascii.eqb_refl.
  - rewrite app_String. simpl.
    destruct (Ascii.eqb_spec c sep) as [->|Hne].
    + by destruct (Hfree "" w).
    + rewrite IH; [done|].
      intros pre post ->. by apply (Hfree (String c pre) post).
Qed.

Lemma split_on_free sep w :
  (∀ pre post, w ≠ pre +:+ String sep post) → split_on sep w = [w].
Proof.
  induction w as [|c w IH]; intros Hfree; [done|].
  simpl. destruct (Ascii.eqb_spec c sep) as [->|Hne].
  - by destruct (Hfree "" w).
  - rewrite IH; [done|].
    intros pre post ->. by apply (Hfree (String c pre) post).
Qed.

End TextFacts.

(** ** The path relativizer *)

Lemma join_markers_split n :
  split_on "/" (join "/" (replicate (S n) "..")) = replicate (S n) "..".
Proof.
  induction n as [|n IH]; [done|].
  change (join "/" (replicate (S (S n)) ".."))
    with (".." +:+ String "/" (join "/" (replicate (S n) ".."))).
  rewrite split_on_app.
  - by rewrite IH.
  - intros [|a [|b [|c pre]]] post; discriminate.
Qed.

Lemma get_relative_path_to_root_prefix (p : path) :
  get_relative_path_to_root p = root_relative_prefix (length p).
Proof. by destruct p. Qed.

(** C2: [get_relative_path_to_root] returns the sentinel "." at depth
    0 and exactly [d] markers ".." joined by "/" at depth [d > 0]; it
    is a function of the depth alone, so two paths with the same number
    of segments get the same prefix, whatever the segments are called.
    (The embedding is a pure function of its argument: it reads no
    field of the generator and touches no state.) *)
Theorem get_relative_path_to_root_depth_only (p q : path) (d : nat) :
  length p = d → length q = d →
  get_relative_path_to_root p =
    (if decide (d = 0) then "." else join "/" (replicate d ".."))
  ∧ split_on "/" (get_relative_path_to_root p) =
    (if decide (d = 0) then ["."] else replicate d "..")
  ∧ get_relative_path_to_root q = get_relative_path_to_root p.
Proof.
  intros Hp Hq. rewrite !get_relative_path_to_root_prefix, Hp, Hq.
  destruct d as [|n]; [done|].
  split_and!; [done| |done]. apply join_markers_split.
Qed.

Lemma get_relative_path_to_root_depth_only_witness :
  length ["guide"; "api"] = 2 ∧ length ["a"; "b"] = 2 ∧
  get_relative_path_to_root ["guide"; "api"] = "../.." ∧
  get_relative_path_to_root ["a"; "b"] = get_relative_path_to_root ["guide"; "api"].
Proof.
  destruct (get_relative_path_to_root_depth_only ["guide"; "api"] ["a"; "b"] 2)
    as (H1 & _ & H3); [reflexivity | reflexivity |].
  split_and!; [reflexivity | reflexivity | exact H1 | exact H3].
Defined.

(** ** Breadcrumbs *)

Lemma ancestor_link_levels n i :
  (if 0 <? n - i - 1
   then join "/" (replicate (n - i - 1) "..") +:+ "/index.html"
   else "index.html") = ancestor_link n i.
Proof.
  unfold ancestor_link. replace (n - i - 1) with (n - 1 - i) by lia.
  by destruct (n - 1 - i).
Qed.

(** The loop of [create_breadcrumb], started at index [k], appends
    the rendering of one crumb per remaining segment. *)
Lemma breadcrumb_loop n (l : list string) : ∀ k acc,
  fold_left
    (λ breadcrumb '(i, part),
       breadcrumb +:+ crumb_html
         (if 0 <? n - i - 1
          then join "/" (replicate (n - i - 1) "..") +:+ "/index.html"
          else "index.html") part)
    (zip (seq k (length l)) l) acc
  = fold_left (λ acc c, acc +:+ render_crumb false c)
      (imap (λ i s, {| label := s; link := ancestor_link n (k + i) |}) l) acc.
Proof.
  induction l as [|s l IH]; intros k acc; [done|].
  rewrite imap_cons. simpl. rewrite IH, ancestor_link_levels.
  replace (k + 0) with k by lia. simpl.
  f_equal. apply imap_ext. intros i x _. simpl. do 2 f_equal. lia.
Qed.

Lemma home_html_render d :
  home_html (root_relative_prefix d) = render_crumb true (home_crumb d).
Proof.
  unfold home_html, render_crumb, home_crumb. simpl.
  by rewrite !app_assoc_s.
Qed.

Lemma create_breadcrumb_render (p : path) :
  create_breadcrumb p = render_trail (breadcrumb_trail p).
Proof.
  unfold create_breadcrumb, breadcrumb_trail, render_trail, enumerate.
  rewrite get_relative_path_to_root_prefix, home_html_render.
  destruct (decide (p = dot)) as [->|_]; [done|].
  by rewrite (breadcrumb_loop (length p) p 0).
Qed.

(** C3: the breadcrumb the code builds is the rendering of a trail
    that starts with the Home entry, linked to the root-relative prefix
    followed by "/index.html"; the root has only that entry; a path of
    depth [d] has [d + 1] entries, the one after Home at position [i]
    carrying segment [i] as its label and [d - 1 - i] parent markers
    followed by "/index.html" (plain "index.html" when that count is
    zero) as its link; the last entry of a non-root path is labelled
    with the node's own name. *)
Theorem create_breadcrumb_trail (p : path) :
  create_breadcrumb p = render_trail (breadcrumb_trail p)
  ∧ breadcrumb_trail p !! 0 =
      Some {| label := "🏠 Home";
              link := get_relative_path_to_root p +:+ "/index.html" |}
  ∧ breadcrumb_trail dot = [{| label := "🏠 Home"; link := "./index.html" |}]
  ∧ length (breadcrumb_trail p) = length p + 1
  ∧ (∀ i : nat,
       breadcrumb_trail p !! (S i) =
         (λ s, {| label := s;
                  link := if decide (length p - 1 - i = 0) then "index.html"
                          else join "/" (replicate (length p - 1 - i) "..")
                                 +:+ "/index.html" |}) <$> p !! i)
  ∧ label <$> last (breadcrumb_trail p) =
      Some (if decide (p = dot) then "🏠 Home" else name p).
Proof.
  split_and!.
  - apply create_breadcrumb_render.
  - by rewrite get_relative_path_to_root_prefix.
  - done.
  - unfold breadcrumb_trail. simpl. rewrite length_imap. lia.
  - intros i. unfold breadcrumb_trail. simpl. rewrite list_lookup_imap.
    destruct (p !! i) as [s|]; [|done]. simpl. do 2 f_equal.
    unfold ancestor_link. by destruct (length p - 1 - i).
  - destruct (decide (p = dot)) as [->|Hne]; [done|].
    unfold breadcrumb_trail.
    destruct p as [|s p _] using rev_ind; [done|].
    rewrite imap_app. simpl. rewrite last_cons, last_snoc. simpl.
    unfold name. by rewrite List.last_last.
Qed.

(** ** Reading text *)

Section Decoding.

Import Utf8.

Lemma emit_ok seq r : (∃ s, r = Ok s) → ∃ s, emit seq r = Ok s.
Proof. intros [s ->]. by eexists. Qed.

(** With the [Ignore] handler the decoder has a result on every input. *)
Lemma decode_ignore_total_bounded (n : nat) : ∀ bs,
  String.length bs ≤ n → ∃ s, decode Ignore bs = Ok s.
Proof.
  induction n as [|n IH]; intros bs Hlen.
  { destruct bs; [by eexists | simpl in Hlen; lia]. }
  destruct bs as [|b0 r0]; [by eexists|]. simpl in Hlen.
  assert (H0 : ∃ s, decode Ignore r0 = Ok s) by (apply IH; lia).
  assert (H1 : ∀ b1 r1, r0 = String b1 r1 → ∃ s, decode Ignore r1 = Ok s).
  { intros b1 r1 ->. simpl in Hlen. apply IH. lia. }
  assert (H2 : ∀ b1 b2 r2, r0 = String b1 (String b2 r2) →
               ∃ s, decode Ignore r2 = Ok s).
  { intros b1 b2 r2 ->. simpl in Hlen. apply IH. lia. }
  assert (H3 : ∀ b1 b2 b3 r3, r0 = String b1 (String b2 (String b3 r3)) →
               ∃ s, decode Ignore r3 = Ok s).
  { intros b1 b2 b3 r3 ->. simpl in Hlen. apply IH. lia. }
  cbn [decode]. unfold on_error.
  repeat case_match; subst;
    first [ by eexists
          | apply emit_ok; eauto
          | eauto ].
Qed.

Lemma decode_ignore_total bs : ∃ s, decode Ignore bs = Ok s.
Proof. by apply (decode_ignore_total_bounded (String.length bs)). Qed.

(** Where the strict decoder accepts, the lenient one returns the same
    text. *)
Lemma decode_strict_ignore_bounded (n : nat) : ∀ bs s,
  String.length bs ≤ n → decode Strict bs = Ok s → decode Ignore bs = Ok s.
Proof.
  induction n as [|n IH]; intros bs s Hlen.
  { destruct bs; [done | simpl in Hlen; lia]. }
  destruct bs as [|b0 r0]; [done|]. simpl in Hlen.
  cbn [decode]. unfold on_error.
  repeat case_match; subst; try discriminate; simpl in Hlen;
    unfold emit; intros Hs;
    repeat match goal with
    | H : context [decode Strict ?r] |- _ =>
        let E := fresh "E" in
        destruct (decode Strict r) eqn:E; [|discriminate];
        apply IH in E; [rewrite E | lia]
    end; done.
Qed.

End Decoding.



(** ** File names *)

Section NameFacts.

Lemma map_string_app f s t :
  map_string f (s +:+ t) = map_string f s +:+ map_string f t.
Proof. induction s as [|c s IH]; [done|]. simpl. by rewrite app_String, IH. Qed.

Lemma endswith_unfold s suf :
  endswith s suf =
    (String.eqb s suf ||
     match s with
     | EmptyString => false
     | String _ s' => endswith s' suf
     end).
Proof. by destruct s. Qed.

Lemma endswith_iff s suf : endswith s suf = true ↔ ∃ pre, s = pre +:+ suf.
Proof.
  induction s as [|c s IH]; rewrite endswith_unfold.
  - rewrite orb_false_r, String.eqb_eq. split.
    + intros <-. by exists "".
    + intros [[|??] H]; [done | discriminate].
  - rewrite orb_true_iff, String.eqb_eq, IH. split.
    + intros [<-|[pre ->]]; [by exists "" | by exists (String c pre)].
    + intros [[|c' pre] H].
      * left. by rewrite H.
      * right. exists pre. rewrite app_String in H. by injection H.
Qed.

Lemma endswith_app pre suf : endswith (pre +:+ suf) suf = true.
Proof. apply endswith_iff. by exists pre. Qed.

Lemma startswith_cons c s :
  startswith (String c s) "." = bool_decide (c = "."%char).
Proof.
  unfold startswith. cbn -[ascii_dec].
  destruct (ascii_dec "." c) as [<-|Hne].
  - by destruct s.
  - by rewrite bool_decide_eq_false_2.
Qed.

Lemma startswith_dot s :
  startswith s "." = true ↔ ∃ r, s = String "." r.
Proof.
  destruct s as [|c s].
  - split; [done | by intros [? ?]].
  - rewrite startswith_cons, bool_decide_eq_true. split.
    + intros ->. by exists s.
    + by intros [r [= -> _]].
Qed.

Lemma startswith_app_nonempty c s t :
  startswith (String c s +:+ t) "." = startswith (String c s) ".".
Proof. by rewrite app_String, !startswith_cons. Qed.

Lemma substring_whole s : substring 0 (String.length s) s = s.
Proof. induction s as [|c s IH]; [done|]. simpl. by rewrite IH. Qed.

Lemma substring_empty s : substring 0 0 s = "".
Proof. by destruct s. Qed.

Lemma substring_split i : ∀ s, i ≤ String.length s →
  substring 0 i s +:+ substring i (String.length s - i) s = s.
Proof.
  induction i as [|i IH]; intros s Hi.
  - by rewrite substring_empty, Nat.sub_0_r, substring_whole.
  - destruct s as [|c s]; simpl in *; [lia|].
    rewrite app_String. f_equal. apply IH. lia.
Qed.

Lemma rfind_dot_bound s i : rfind_dot s = Some i → i < String.length s.
Proof.
  revert i. induction s as [|c s IH]; intros i; simpl; [done|].
  destruct (rfind_dot s) as [j|].
  - intros [= <-]. specialize (IH j eq_refl). lia.
  - destruct (Ascii.eqb c "."); [|done]. intros [= <-]. lia.
Qed.

(** A file name is its stem followed by its suffix. *)
Lemma stem_suffix nm : stem nm +:+ suffix nm = nm.
Proof.
  unfold stem, suffix. destruct (rfind_dot nm) as [i|] eqn:Hi.
  - destruct ((0 <? i) && (i <? String.length nm - 1)).
    + apply substring_split. apply rfind_dot_bound in Hi. lia.
    + apply app_empty_r.
  - apply app_empty_r.
Qed.

(** The stem of a visible, non-empty name is visible and non-empty. *)
Lemma stem_visible nm ext :
  nm ≠ "" → startswith nm "." = false →
  startswith (stem nm +:+ ext) "." = false.
Proof.
  intros Hne Hvis. destruct nm as [|c nm]; [done|].
  unfold stem. destruct (rfind_dot (String c nm)) as [i|]; cycle 1.
  { by rewrite startswith_app_nonempty. }
  destruct ((0 <? i) && _) eqn:E; [|by rewrite startswith_app_nonempty].
  apply andb_true_iff in E as [Hpos _].
  destruct i as [|i]; [done|].
  change (substring 0 (S i) (String c nm)) with (String c (substring 0 i nm)).
  by rewrite startswith_app_nonempty, startswith_cons in *.
Qed.

(** The walker tests the end of the lower-cased name, the listing
    builder the lower-cased suffix: a documentation suffix passes the
    walker's test. *)
Lemma suffix_has_doc_extension nm :
  lower (suffix nm) ∈ [".md"; ".txt"] → has_doc_extension nm = true.
Proof.
  intros Hin. unfold has_doc_extension.
  rewrite <- (stem_suffix nm) at 1 2. unfold lower in *.
  rewrite map_string_app. apply orb_true_iff.
  apply elem_of_cons in Hin as [->|Hin]; [left; apply endswith_app|].
  apply list_elem_of_singleton in Hin as ->. right. apply endswith_app.
Qed.

Lemma has_doc_extension_nonempty nm : has_doc_extension nm = true → nm ≠ "".
Proof. by intros H ->. Qed.

End NameFacts.

(** ** The directory listing *)

Section ListingFacts.

Variable self : FastSiteGenerator.

Lemma listing_loop (l : list node) : ∀ ds fs,
  fold_left (listing_step self) l (ds, fs)
  = (ds ++ omap (listed_dir self) l, fs ++ omap (listed_file self) l).
Proof.
  induction l as [|item l IH]; intros ds fs; simpl.
  { by rewrite !app_nil_r. }
  unfold listed_dir, listed_file.
  destruct (listing_skips self (node_name item)); [apply IH|].
  destruct (is_dir item).
  { rewrite IH. by rewrite <- app_assoc. }
  case_bool_decide.
  - rewrite IH. by rewrite <- app_assoc.
  - apply IH.
Qed.

Lemma listing_entries_omap (items : list node) :
  listing_entries self items
  = (omap (listed_dir self) (merge_sort node_le items),
     omap (listed_file self) (merge_sort node_le items)).
Proof. unfold listing_entries. by rewrite listing_loop. Qed.

Lemma elem_of_listing_dirs items e :
  e ∈ (listing_entries self items).1 ↔
  ∃ item, item ∈ items ∧ listed_dir self item = Some e.
Proof.
  rewrite listing_entries_omap. simpl. rewrite list_elem_of_omap.
  by setoid_rewrite merge_sort_Permutation.
Qed.

Lemma elem_of_listing_files items e :
  e ∈ (listing_entries self items).2 ↔
  ∃ item, item ∈ items ∧ listed_file self item = Some e.
Proof.
  rewrite listing_entries_omap. simpl. rewrite list_elem_of_omap.
  by setoid_rewrite merge_sort_Permutation.
Qed.

End ListingFacts.

(** ** One file of the walk *)

Section FileStep.

Variable env : environment.
Variable self : FastSiteGenerator.

(** The file loop passes over hidden names and names without a
    documentation extension, and otherwise appends exactly one event,
    a page written or a page failed, for the file. *)
Lemma process_file_cases rel w file data :
  (startswith file "." = true ∨ has_doc_extension file = false)
    ∧ process_file env self rel w (file, data) = w
  ∨ startswith file "." = false ∧ has_doc_extension file = true ∧
    ((∃ page m,
        process_markdown env self data file (rel_file_path_of rel file) = Ok page
        ∧ write_text env (fs w) (page_target rel file) page = Ok m
        ∧ process_file env self rel w (file, data)
          = {| fs := m;
               trace := trace w ++ [PageWritten (rel_file_path_of rel file)
                                      (page_target rel file)] |})
     ∨ (∃ e,
        (process_markdown env self data file (rel_file_path_of rel file) = Raise e
         ∨ ∃ page,
             process_markdown env self data file (rel_file_path_of rel file)
               = Ok page
             ∧ write_text env (fs w) (page_target rel file) page = Raise e)
        ∧ process_file env self rel w (file, data)
          = {| fs := fs w;
               trace := trace w ++ [PageFailed (rel_file_path_of rel file) e] |})).
Proof.
  unfold process_file.
  destruct (startswith file ".") eqn:Hvis; [left; eauto|].
  destruct (has_doc_extension file) eqn:Hext; [|left; eauto].
  right. split_and!; [done..|].
  destruct (process_markdown env self data file _) as [page|e] eqn:Hpm; simpl.
  - destruct (write_text env (fs w) _ page) as [m|e] eqn:Hw.
    + left. by exists page, m.
    + right. exists e. split; [|done]. right. by exists page.
  - right. exists e. split; [by left | done].
Qed.

End FileStep.



(** ** The command line *)

(** C8: the generator's [format_markdown] flag has no effect: two
    runs that differ only in it produce the same output directory and
    the same reports, from the generator and from the command line
    alike; and a third argument that is "false", "0" or "no" in any
    letter case is parsed, to the flag value [false], with the other
    two arguments untouched. *)
Theorem format_markdown_flag_inert (env : environment) (top : list node)
    (prior : gmap path entry) (prog src out flag : string) :
  lower flag ∈ ["false"; "0"; "no"] →
  parse_args [prog; src; out; flag] = (src, out, false)
  ∧ (∀ (source output : path) (b1 b2 : bool),
       generate_site env (new_generator source output b1) top prior
       = generate_site env (new_generator source output b2) top prior)
  ∧ (∀ other : string,
       main env [prog; src; out; flag] top prior
       = main env [prog; src; out; other] top prior)
  ∧ main env [prog; src; out; flag] top prior = main env [prog; src; out] top prior.
Proof.
  intros Hflag.
  assert (Hparse : parse_args [prog; src; out; flag] = (src, out, false)).
  { unfold parse_args. simpl. by rewrite bool_decide_eq_true_2. }
  split_and!; [done| | |].
  - intros source output b1 b2. reflexivity.
  - intros other. unfold main. rewrite Hparse.
    unfold parse_args. simpl. reflexivity.
  - unfold main. rewrite Hparse. unfold parse_args. simpl. reflexivity.
Qed.

Lemma format_markdown_flag_inert_witness :
  lower "FALSE" ∈ ["false"; "0"; "no"] ∧
  parse_args ["prog"; "."; "docs"; "FALSE"] = (".", "docs", false) ∧
  parse_args ["prog"; "."; "docs"; "No"] = (".", "docs", false) ∧
  parse_args ["prog"; "."; "docs"; "0"] = (".", "docs", false).
Proof.
  assert (H1 : lower "FALSE" ∈ ["false"; "0"; "no"])
    by (apply elem_of_cons; by left).
  pose proof (format_markdown_flag_inert sample_env [] ∅ "prog" "." "docs"
                "FALSE" H1) as (Hp & _).
  split_and!; [exact H1 | exact Hp | reflexivity | reflexivity].
Defined.

(** ** The exclusion tests of the walk *)

Section Exclusion.

Variable self : FastSiteGenerator.

Lemma skip_by_name_iff rel :
  skip_by_name self rel = true ↔
  ∃ seg, seg ∈ rel ∧
         (startswith seg "." = true ∨ seg = name (output_dir self)).
Proof.
  unfold skip_by_name. rewrite existsb_exists. unfold excluded_part.
  setoid_rewrite orb_true_iff. setoid_rewrite String.eqb_eq.
  by setoid_rewrite list_elem_of_In.
Qed.

Lemma skip_by_name_false rel :
  skip_by_name self rel = false →
  Forall (λ seg, startswith seg "." = false ∧ seg ≠ name (output_dir self)) rel.
Proof.
  intros Hskip. apply Forall_forall. intros seg Hin.
  destruct (startswith seg ".") eqn:Hs.
  - assert (skip_by_name self rel = true); [|congruence].
    apply skip_by_name_iff. eauto.
  - split; [done|]. intros ->.
    assert (skip_by_name self rel = true); [|congruence].
    apply skip_by_name_iff. eauto.
Qed.

Lemma elem_of_parents (q p : path) :
  q ∈ parents p ↔ q `prefix_of` p ∧ q ≠ p.
Proof.
  unfold parents. rewrite list_elem_of_fmap. split.
  - intros (n & -> & Hn). apply elem_of_reverse, elem_of_seq in Hn.
    split; [apply prefix_take|].
    intros Heq. apply (f_equal length) in Heq.
    rewrite length_take in Heq. lia.
  - intros [[k ->] Hne]. exists (length q). split.
    + by rewrite take_app_length.
    + apply elem_of_reverse, elem_of_seq. rewrite length_app.
      destruct k; [by rewrite app_nil_r in Hne | simpl; lia].
Qed.

Lemma skip_output_iff root_path :
  skip_output self root_path = true ↔ output_dir self `prefix_of` root_path.
Proof.
  unfold skip_output.
  rewrite orb_true_iff, !bool_decide_eq_true, elem_of_parents. split.
  - intros [->|[? _]]; done.
  - intros Hpre. destruct (decide (root_path = output_dir self)); [by left|].
    right. split; [done | congruence].
Qed.

Lemma skipped_iff rel :
  skipped self rel = true ↔
  (∃ seg, seg ∈ rel ∧
          (startswith seg "." = true ∨ seg = name (output_dir self)))
  ∨ output_dir self `prefix_of` joinpath (source_dir self) rel.
Proof.
  unfold skipped. by rewrite orb_true_iff, skip_by_name_iff, skip_output_iff.
Qed.

End Exclusion.

(** ** The steps of the walk and their events *)

Section WalkSteps.

Variable env : environment.
Variable self : FastSiteGenerator.

Lemma rel_file_path_of_snoc rel file : rel_file_path_of rel file = rel ++ [file].
Proof. unfold rel_file_path_of, joinpath. by case_decide; [|destruct rel]. Qed.

Lemma parent_snoc (p : path) x : parent (p ++ [x]) = p.
Proof. apply removelast_last. Qed.

Lemma process_file_trace rel w f :
  ∃ pages, trace (process_file env self rel w f) = trace w ++ pages
           ∧ Forall (page_of rel) pages.
Proof.
  destruct f as [file data].
  destruct (process_file_cases env self rel w file data)
    as [[_ ->]|(_ & _ & [(page & m & _ & _ & ->)|(e & _ & ->)])].
  - exists []. by rewrite app_nil_r.
  - eexists. split; [done|]. repeat constructor. simpl.
    by rewrite rel_file_path_of_snoc, parent_snoc.
  - eexists. split; [done|]. repeat constructor. simpl.
    by rewrite rel_file_path_of_snoc, parent_snoc.
Qed.

Lemma file_loop_trace rel files : ∀ w,
  ∃ pages, trace (fold_left (process_file env self rel) files w)
             = trace w ++ pages
           ∧ Forall (page_of rel) pages.
Proof.
  induction files as [|f files IH]; intros w; simpl.
  { exists []. by rewrite app_nil_r. }
  destruct (process_file_trace rel w f) as (p1 & E1 & F1).
  destruct (IH (process_file env self rel w f)) as (p2 & E2 & F2).
  exists (p1 ++ p2). split; [|by apply Forall_app].
  by rewrite E2, E1, <- app_assoc.
Qed.

Lemma write_index_trace rel items w :
  ∃ idx, trace (write_index env self rel items w) = trace w ++ [idx]
         ∧ index_of rel idx.
Proof.
  unfold write_index. destruct (write_text _ _ _ _); eexists; by split.
Qed.

(** One directory of the walk: it is skipped and nothing happens, or
    creating its mirror raises, or its block of events is appended:
    the page events of its files, then its index event. *)
Lemma visit_cases w rel items :
  skipped self rel = true ∧ visit env self w (rel, items) = Ok w
  ∨ skipped self rel = false ∧
    ((∃ e, mkdir_parents (length rel) (fs w) rel = Raise e
           ∧ visit env self w (rel, items) = Raise e)
     ∨ (∃ w' pages idx,
          visit env self w (rel, items) = Ok w'
          ∧ trace w' = trace w ++ pages ++ [idx]
          ∧ Forall (page_of rel) pages ∧ index_of rel idx)).
Proof.
  unfold visit, skipped.
  destruct (skip_by_name self rel); [by left|].
  destruct (skip_output self _); [by left|].
  right. split; [done|].
  destruct (mkdir_parents _ _ _) as [m|e]; simpl; [|left; by exists e].
  right.
  destruct (file_loop_trace rel (files_of items) {| fs := m; trace := trace w |})
    as (pages & Ep & Fp).
  destruct (write_index_trace rel items
              (fold_left (process_file env self rel) (files_of items)
                 {| fs := m; trace := trace w |})) as (idx & Ei & Fi).
  eexists _, pages, idx. split_and!; [done| |done..].
  by rewrite Ei, Ep, <- app_assoc.
Qed.

End WalkSteps.

(** ** Which nodes are left out *)

Section Listed.

Variable self : FastSiteGenerator.

Lemma listed_dir_iff items e :
  e ∈ (listing_entries self items).1 ↔
  ∃ nm ch, Dir nm ch ∈ items
           ∧ startswith nm "." = false ∧ nm ≠ name (output_dir self)
           ∧ e = {| e_name := nm; e_path := nm +:+ "/index.html";
                    e_type := "📁 Directory" |}.
Proof.
  rewrite elem_of_listing_dirs. unfold listed_dir, listing_skips. split.
  - intros ([nm d|nm ch] & Hin & He); simpl in He.
    + by destruct (_ || _).
    + destruct (startswith nm ".") eqn:Hs; [done|].
      destruct (String.eqb_spec nm (name (output_dir self))); [done|].
      simpl in He. injection He as <-. by exists nm, ch.
  - intros (nm & ch & Hin & Hs & Hne & ->). exists (Dir nm ch).
    split; [done|]. simpl. rewrite Hs.
    by rewrite (proj2 (String.eqb_neq _ _) Hne).
Qed.

Lemma listed_file_iff items e :
  e ∈ (listing_entries self items).2 ↔
  ∃ nm data, File nm data ∈ items
             ∧ startswith nm "." = false ∧ nm ≠ name (output_dir self)
             ∧ lower (suffix nm) ∈ [".md"; ".txt"]
             ∧ e = {| e_name := nm; e_path := stem nm +:+ ".html";
                      e_type := "📄 " +:+ upper (suffix nm) +:+ " File" |}.
Proof.
  rewrite elem_of_listing_files. unfold listed_file, listing_skips. split.
  - intros ([nm d|nm ch] & Hin & He); simpl in He.
    + destruct (startswith nm ".") eqn:Hs; [done|].
      destruct (String.eqb_spec nm (name (output_dir self))); [done|].
      simpl in He. case_bool_decide; [|done].
      injection He as <-. by exists nm, d.
    + by destruct (_ || _).
  - intros (nm & d & Hin & Hs & Hne & Hsuf & ->). exists (File nm d).
    split; [done|]. simpl. rewrite Hs.
    rewrite (proj2 (String.eqb_neq _ _) Hne). simpl.
    by rewrite bool_decide_eq_true_2.
Qed.

End Listed.



(** ** The order of the steps *)

Section StepOrder.

Variable env : environment.
Variable self : FastSiteGenerator.

Lemma index_closes_pages_app t1 t2 :
  index_closes_pages (t1 ++ t2) ↔
  index_closes_pages t1 ∧ index_closes_pages t2
  ∧ ∀ idx pg, idx ∈ t1 → pg ∈ t2 → is_page_event idx = false →
              ¬ page_of (event_dir idx) pg.
Proof.
  induction t1 as [|ev t1 IH]; simpl.
  - split; [intros H; split_and!; [done..|]|tauto].
    intros idx pg Hin. by apply elem_of_nil in Hin.
  - rewrite IH. setoid_rewrite Forall_app. setoid_rewrite Forall_forall.
    setoid_rewrite elem_of_cons. split.
    + intros (Hev & H1 & H2 & Hx). split_and!; [|done..|].
      * intros Hi. by apply Hev.
      * intros idx pg [->|Hin] Hpg Hi; [by apply Hev | by apply Hx].
    + intros ((Hev & H1) & H2 & Hx). split_and!; [|done..|].
      * intros Hi. split; [by apply Hev|]. intros pg Hpg. apply Hx; auto.
      * intros idx pg Hin. apply Hx; auto.
Qed.

Lemma index_closes_pages_block rel pages idx :
  Forall (page_of rel) pages → index_of rel idx →
  index_closes_pages (pages ++ [idx]).
Proof.
  intros Hp Hi. apply index_closes_pages_app. split_and!.
  - induction Hp as [|pg pages [Hpg _] _ IH]; simpl; [done|].
    split; [congruence | done].
  - simpl. split; [|done]. by intros _.
  - intros ev pg Hev _ Hidx. rewrite Forall_forall in Hp.
    destruct (Hp ev Hev). congruence.
Qed.

Lemma walk_loop_cons item items w :
  walk_loop env self (item :: items) w
  = match visit env self w item with
    | Ok w' => walk_loop env self items w'
    | Raise e => Aborted w e
    end.
Proof. done. Qed.

(** The walk keeps the order: the events so far belong to directories
    already seen, and the directories still to come are new. *)
Lemma walk_loop_order items : ∀ w (seen : list path),
  NoDup items.*1 →
  (∀ p, p ∈ items.*1 → p ∉ seen) →
  Forall (λ ev, event_dir ev ∈ seen) (trace w) →
  index_closes_pages (trace w) →
  index_closes_pages (trace (final (walk_loop env self items w))).
Proof.
  induction items as [|[rel its] items IH]; intros w seen Hnd Hnew Hseen Hord;
    [done|].
  rewrite walk_loop_cons. rewrite fmap_cons in Hnd, Hnew. simpl in Hnd, Hnew.
  apply NoDup_cons in Hnd as [Hrel Hnd].
  destruct (visit_cases env self w rel its)
    as [[_ ->]|(_ & [(e & _ & ->)|(w' & pages & idx & -> & Et & Fp & Fi)])].
  - apply (IH w seen); [done| |done..].
    intros p Hp. apply Hnew, elem_of_cons. by right.
  - done.
  - apply (IH w' (rel :: seen)); [done| | |].
    + intros p Hp Hin. apply elem_of_cons in Hin as [->|Hin]; [done|].
      apply (Hnew p); [apply elem_of_cons; by right | done].
    + rewrite Et. apply Forall_app. split.
      * eapply Forall_impl; [exact Hseen|]. intros ev Hev.
        apply elem_of_cons. by right.
      * apply Forall_app. split.
        -- eapply Forall_impl; [exact Fp|]. intros ev [_ ->].
           apply elem_of_cons. by left.
        -- apply Forall_singleton. destruct Fi as [_ ->].
           apply elem_of_cons. by left.
    + rewrite Et. apply index_closes_pages_app. split_and!; [done| |].
      * by apply (index_closes_pages_block rel).
      * intros ev pg Hev Hpg _ [Hpage Hdir].
        rewrite Forall_forall in Hseen. specialize (Hseen ev Hev).
        assert (event_dir pg = rel) as Hrelpg.
        { apply elem_of_app in Hpg as [Hpg|Hpg].
          - rewrite Forall_forall in Fp. by destruct (Fp pg Hpg).
          - apply list_elem_of_singleton in Hpg as ->. by destruct Fi. }
        apply (Hnew rel); [apply elem_of_cons; by left|]. congruence.
Qed.

Lemma index_closes_pages_lookup t : ∀ i j idx pg,
  index_closes_pages t →
  t !! i = Some idx → t !! j = Some pg →
  is_page_event idx = false → is_page_event pg = true →
  event_dir pg = event_dir idx → j < i.
Proof.
  induction t as [|ev t IH]; intros i j idx pg Hord Hi Hj Hidx Hpg Hdir;
    [done|].
  destruct Hord as [Hev Hord].
  destruct i as [|i], j as [|j]; simpl in *.
  - congruence.
  - injection Hi as ->. specialize (Hev Hidx).
    rewrite Forall_forall in Hev. destruct (Hev pg); [|done].
    by eapply list_elem_of_lookup_2.
  - lia.
  - apply (IH i j idx pg) in Hord; [lia | done..].
Qed.

End StepOrder.

(** C7: in the order of the program's steps, the index page of a
    directory is written after every attempt at a content page of that
    directory: in the trace of a run, an event of a page (written or
    failed) of a directory never stands after an index event (written
    or failed) of the same directory. Directories are told apart by
    their relative paths, which in a file system are pairwise
    distinct. *)
Theorem index_written_after_pages (env : environment)
    (self : FastSiteGenerator) (top : list node) (prior : gmap path entry)
    (i j : nat) (idx pg : event) :
  NoDup (os_walk top).*1 →
  trace (final (generate_site env self top prior)) !! i = Some idx →
  trace (final (generate_site env self top prior)) !! j = Some pg →
  is_page_event idx = false → is_page_event pg = true →
  event_dir pg = event_dir idx →
  j < i.
Proof.
  intros Hnd. apply index_closes_pages_lookup.
  unfold generate_site. apply (walk_loop_order env self _ _ []); [done| |done..].
  intros p _ Hin. by apply elem_of_nil in Hin.
Qed.

Lemma index_written_after_pages_witness :
  NoDup (os_walk sample_guide).*1 ∧
  trace (final (generate_site sample_env sample_generator sample_guide ∅)) !! 4
    = Some (IndexWritten ["guide"] ["guide"; "index.html"]) ∧
  trace (final (generate_site sample_env sample_generator sample_guide ∅)) !! 3
    = Some (PageWritten ["guide"; "usage.txt"] ["guide"; "usage.html"]) ∧
  3 < 4.
Proof.
  assert (Hnd : NoDup (os_walk sample_guide).*1).
  { apply (bool_decide_unpack (NoDup (os_walk sample_guide).*1)). by vm_compute. }
  split_and!; [exact Hnd | reflexivity | reflexivity |].
  apply (index_written_after_pages sample_env sample_generator sample_guide ∅
           4 3 (IndexWritten ["guide"] ["guide"; "index.html"])
           (PageWritten ["guide"; "usage.txt"] ["guide"; "usage.html"]) Hnd);
    reflexivity.
Defined.

(** ** The output directory *)

Section OutputFacts.

Variable env : environment.

Lemma prefix_of_snoc (q p : path) x :
  q `prefix_of` p ++ [x] → q = p ++ [x] ∨ q `prefix_of` p.
Proof.
  intros [k Hk]. destruct k as [|y k _] using rev_ind.
  - left. by rewrite app_nil_r in Hk.
  - right. rewrite app_assoc in Hk. apply app_inj_tail in Hk as [-> _].
    by exists k.
Qed.

(** What a successful [mkdir] leaves: the directory, everything that
    was there, and nothing new but directories on the way to it. *)
Lemma mkdir_parents_inv (n : nat) : ∀ (m m' : gmap path entry) (p : path),
  mkdir_parents n m p = Ok m' →
  m' !! p = Some EDir
  ∧ (∀ q e, m !! q = Some e → m' !! q = Some e)
  ∧ (∀ q e, m' !! q = Some e →
       m !! q = Some e ∨ e = EDir ∧ q `prefix_of` p).
Proof.
  induction n as [|n IH]; intros m m' p; simpl;
    destruct (m !! p) as [[c|]|] eqn:Hp; try done;
    try (intros [= <-]; split_and!; [done | done | by left]);
    destruct (m !! parent p) as [[c|]|] eqn:Hpar; try done.
  - intros [= <-]. split_and!.
    + apply lookup_insert_eq.
    + intros q e Hq. rewrite lookup_insert_ne; [done | congruence].
    + intros q e. rewrite lookup_insert. case_decide as Hd.
      * intros [= <-]. right. by rewrite <- Hd.
      * by left.
  - intros [= <-]. split_and!.
    + apply lookup_insert_eq.
    + intros q e Hq. rewrite lookup_insert_ne; [done | congruence].
    + intros q e. rewrite lookup_insert. case_decide as Hd.
      * intros [= <-]. right. by rewrite <- Hd.
      * by left.
  - destruct (mkdir_parents n m (parent p)) as [m1|e] eqn:Hrec; [|done].
    simpl. intros [= <-].
    destruct (IH _ _ _ Hrec) as (H1 & H2 & H3).
    assert (Hpre : parent p `prefix_of` p).
    { destruct p as [|x p _] using rev_ind; [done|].
      rewrite parent_snoc. by exists [x]. }
    split_and!.
    + apply lookup_insert_eq.
    + intros q e Hq. rewrite lookup_insert_ne; [by apply H2 | congruence].
    + intros q e. rewrite lookup_insert. case_decide as Hd.
      * intros [= <-]. right. by rewrite <- Hd.
      * intros Hq. destruct (H3 _ _ Hq) as [?|[-> Hqp]]; [by left|].
        right. split; [done|]. by etrans.
Qed.

(** [mkdir] goes through when the root is there and no file is in
    the way. *)
Lemma mkdir_parents_succeeds (n : nat) : ∀ (m : gmap path entry) (p : path),
  length p ≤ n →
  m !! dot = Some EDir →
  (∀ q c, q `prefix_of` p → m !! q ≠ Some (EFile c)) →
  ∃ m', mkdir_parents n m p = Ok m'.
Proof.
  unfold dot.
  induction n as [|n IH]; intros m p Hlen Hroot Hfree.
  - destruct p; [|simpl in Hlen; lia]. simpl. rewrite Hroot. by eexists.
  - simpl. destruct (m !! p) as [[c|]|] eqn:Hp.
    + by destruct (Hfree p c).
    + by eexists.
    + destruct p as [|x p _] using rev_ind; [congruence|].
      rewrite parent_snoc. rewrite length_app in Hlen. simpl in Hlen.
      assert (Hpre : p `prefix_of` p ++ [x]) by (by exists [x]).
      destruct (m !! p) as [[c|]|] eqn:Hpp.
      * by destruct (Hfree p c).
      * by eexists.
      * destruct (IH m p) as [m1 ->]; [lia | done | | by eexists].
        intros q c Hq. apply Hfree. by etrans.
Qed.

(** A write succeeds exactly when the environment lets it, on a
    target that is not a directory and in a directory that exists. *)
Lemma write_text_ok (m : gmap path entry) target content :
  m !! target ≠ Some EDir →
  m !! parent target = Some EDir →
  write_text env m target content
  = match write_error env target with
    | Some e => Raise e
    | None => Ok (<[target := EFile content]> m)
    end.
Proof.
  intros Hnd Hpar. unfold write_text. destruct (write_error env target); [done|].
  rewrite Hpar. by destruct (m !! target) as [[|]|].
Qed.

(** Whatever a write does, it only puts a file where no directory is. *)
Lemma write_text_inv (m m' : gmap path entry) target content :
  write_text env m target content = Ok m' →
  m' = <[target := EFile content]> m
  ∧ m !! target ≠ Some EDir ∧ m !! parent target = Some EDir.
Proof.
  unfold write_text. destruct (write_error env target); [done|].
  destruct (m !! target) as [[c|]|] eqn:Ht; [|done|];
    destruct (m !! parent target) as [[c'|]|]; try done;
    by intros [= <-].
Qed.

End OutputFacts.

(** ** What every step keeps *)

Section Preservation.

Variable env : environment.
Variable self : FastSiteGenerator.
Variable P : string → Prop.

Lemma shaped_mkdir (n : nat) (m m' : gmap path entry) (rel : path) :
  shaped P m → Forall P rel → mkdir_parents n m rel = Ok m' → shaped P m'.
Proof.
  intros (Hroot & Hfiles & Hdirs) Hrel Hmk.
  destruct (mkdir_parents_inv n m m' rel Hmk) as (_ & Hkeep & Hnew).
  split_and!.
  - by apply Hkeep.
  - intros p c Hp. destruct (Hnew _ _ Hp) as [Hold|[? _]]; [|done].
    by apply (Hfiles p c).
  - intros p Hp. destruct (Hnew _ _ Hp) as [Hold|[_ [k ->]]]; [by apply Hdirs|].
    by apply Forall_app in Hrel as [? _].
Qed.

Lemma shaped_write (m m' : gmap path entry) (rel : path) x content :
  shaped P m → Forall P rel →
  endswith x ".html" = true → startswith x "." = false →
  write_text env m (rel ++ [x]) content = Ok m' → shaped P m'.
Proof.
  intros (Hroot & Hfiles & Hdirs) Hrel Hx Hvis Hw.
  apply write_text_inv in Hw as (-> & _ & _). split_and!.
  - rewrite lookup_insert_ne; [done|]. by destruct rel.
  - intros p c. rewrite lookup_insert. case_decide as Hd.
    + intros _. right. exists rel, x. by rewrite <- Hd.
    + apply Hfiles.
  - intros p. rewrite lookup_insert. case_decide; [done | apply Hdirs].
Qed.

Lemma shaped_process_file rel w f :
  shaped P (fs w) → Forall P rel →
  shaped P (fs (process_file env self rel w f)).
Proof.
  intros Hsh Hrel. destruct f as [file data].
  destruct (process_file_cases env self rel w file data)
    as [[_ ->]|(Hvis & Hext & [(page & m & _ & Hw & ->)|(e & _ & ->)])];
    [done| |done].
  simpl. unfold page_target, joinpath in Hw.
  eapply shaped_write; [done | done | apply endswith_app | | exact Hw].
  apply stem_visible; [by apply has_doc_extension_nonempty | done].
Qed.

Lemma shaped_file_loop rel files : ∀ w,
  shaped P (fs w) → Forall P rel →
  shaped P (fs (fold_left (process_file env self rel) files w)).
Proof.
  induction files as [|f files IH]; intros w Hsh Hrel; [done|].
  simpl. apply IH; [|done]. by apply shaped_process_file.
Qed.

Lemma shaped_write_index rel items w :
  shaped P (fs w) → Forall P rel →
  shaped P (fs (write_index env self rel items w)).
Proof.
  intros Hsh Hrel. unfold write_index.
  destruct (write_text env (fs w) _ _) as [m|e] eqn:Hw; [|done].
  simpl. unfold index_target, joinpath in Hw.
  by eapply shaped_write; [done | done | | | exact Hw].
Qed.

Lemma shaped_visit w w' rel items :
  shaped P (fs w) → (skipped self rel = false → Forall P rel) →
  visit env self w (rel, items) = Ok w' → shaped P (fs w').
Proof.
  intros Hsh Hrel. unfold visit, skipped in *.
  destruct (skip_by_name self rel); [by intros [= <-]|].
  destruct (skip_output self _); [by intros [= <-]|].
  specialize (Hrel eq_refl).
  destruct (mkdir_parents _ _ _) as [m|e] eqn:Hmk; [|done]. simpl.
  intros [= <-]. apply shaped_write_index; [|done].
  apply shaped_file_loop; [|done]. simpl. by eapply shaped_mkdir.
Qed.

Lemma shaped_walk_loop items : ∀ w,
  shaped P (fs w) →
  Forall (λ item, skipped self item.1 = false → Forall P item.1) items →
  shaped P (fs (final (walk_loop env self items w))).
Proof.
  induction items as [|[rel its] items IH]; intros w Hsh Hitems; [done|].
  apply Forall_cons in Hitems as [Hrel Hitems]. rewrite walk_loop_cons.
  destruct (visit env self w (rel, its)) as [w'|e] eqn:Hv; [|done].
  apply IH; [|done]. by eapply shaped_visit.
Qed.

Lemma shaped_purged prior : shaped P (purged prior).
Proof.
  unfold purged. split_and!.
  - done.
  - intros p c. rewrite lookup_insert. case_decide as Hd.
    + intros _. by left.
    + rewrite lookup_insert. case_decide; [done|]. by rewrite lookup_empty.
  - intros p. rewrite lookup_insert. case_decide; [done|].
    rewrite lookup_insert. case_decide as Hd; [|by rewrite lookup_empty].
    intros _. rewrite <- Hd. constructor.
Qed.

(** *** Nothing is lost *)

Lemma extends_refl w : extends w w.
Proof. split_and!; eauto. Qed.

Lemma extends_trans w1 w2 w3 : extends w1 w2 → extends w2 w3 → extends w1 w3.
Proof.
  intros (Ht1 & Hf1 & Hd1) (Ht2 & Hf2 & Hd2). split_and!; [eauto| |eauto].
  intros p c Hp. destruct (Hf1 _ _ Hp) as [c' Hc']. eauto.
Qed.

Lemma extends_write (w : world) m target content evs :
  write_text env (fs w) target content = Ok m →
  extends w {| fs := m; trace := trace w ++ evs |}.
Proof.
  intros Hw. apply write_text_inv in Hw as (-> & Hnd & _).
  split_and!; simpl.
  - intros ev Hev. apply elem_of_app. by left.
  - intros p c Hp. rewrite lookup_insert. case_decide; eauto.
  - intros p Hp. rewrite lookup_insert_ne; [done | congruence].
Qed.

Lemma extends_events (w : world) evs :
  extends w {| fs := fs w; trace := trace w ++ evs |}.
Proof.
  split_and!; simpl; [|eauto..]. intros ev Hev. apply elem_of_app. by left.
Qed.

Lemma extends_process_file rel w f : extends w (process_file env self rel w f).
Proof.
  destruct f as [file data].
  destruct (process_file_cases env self rel w file data)
    as [[_ ->]|(_ & _ & [(page & m & _ & Hw & ->)|(e & _ & ->)])].
  - apply extends_refl.
  - by eapply extends_write.
  - apply extends_events.
Qed.

Lemma extends_file_loop rel files : ∀ w,
  extends w (fold_left (process_file env self rel) files w).
Proof.
  induction files as [|f files IH]; intros w; [apply extends_refl|].
  simpl. eapply extends_trans; [apply extends_process_file | apply IH].
Qed.

Lemma extends_write_index rel items w :
  extends w (write_index env self rel items w).
Proof.
  unfold write_index.
  destruct (write_text env (fs w) _ _) as [m|e] eqn:Hw.
  - by eapply extends_write.
  - apply extends_events.
Qed.

Lemma extends_mkdir (n : nat) (w : world) m rel :
  mkdir_parents n (fs w) rel = Ok m → extends w {| fs := m; trace := trace w |}.
Proof.
  intros Hmk. destruct (mkdir_parents_inv _ _ _ _ Hmk) as (_ & Hkeep & _).
  split_and!; simpl; eauto.
Qed.

Lemma extends_visit w w' item : visit env self w item = Ok w' → extends w w'.
Proof.
  destruct item as [rel items]. unfold visit.
  destruct (skip_by_name self rel); [intros [= <-]; apply extends_refl|].
  destruct (skip_output self _); [intros [= <-]; apply extends_refl|].
  destruct (mkdir_parents _ _ _) as [m|e] eqn:Hmk; [|done]. simpl.
  intros [= <-].
  eapply extends_trans; [by eapply extends_mkdir|].
  eapply extends_trans; [apply extends_file_loop | apply extends_write_index].
Qed.

End Preservation.

(** ** What a run owes every visited directory *)

Section Outcomes.

Variable env : environment.
Variable self : FastSiteGenerator.

Lemma shaped_not_dir (m : gmap path entry) (rel : path) stem_ :
  shaped plain_segment m → m !! (rel ++ [stem_ +:+ ".html"]) ≠ Some EDir.
Proof.
  intros (_ & _ & Hdirs) Hd. apply Hdirs in Hd.
  apply Forall_app in Hd as [_ Hx]. apply Forall_singleton in Hx as [_ Hx].
  by rewrite endswith_app in Hx.
Qed.

Lemma process_file_result rel w file data :
  shaped plain_segment (fs w) → fs w !! rel = Some EDir →
  startswith file "." = false → has_doc_extension file = true →
  process_file env self rel w (file, data)
  = match page_result env self rel file data with
    | Ok page =>
        {| fs := <[page_target rel file := EFile page]> (fs w);
           trace := trace w ++ [PageWritten (rel_file_path_of rel file)
                                  (page_target rel file)] |}
    | Raise e =>
        {| fs := fs w;
           trace := trace w ++ [PageFailed (rel_file_path_of rel file) e] |}
    end.
Proof.
  intros Hsh Hrel Hvis Hext. unfold process_file, page_result.
  rewrite Hvis, Hext.
  destruct (process_markdown env self data file _) as [page|e]; simpl; [|done].
  rewrite write_text_ok.
  - by destruct (write_error env _).
  - by apply shaped_not_dir.
  - unfold page_target, joinpath. by rewrite parent_snoc.
Qed.

Lemma file_done_extends rel w w' f :
  extends w w' → file_done env self rel w f → file_done env self rel w' f.
Proof.
  intros (Ht & Hf & _). unfold file_done.
  destruct (page_result env self rel f.1 f.2); [|by apply Ht].
  intros [Hev [c Hc]]. split; [by apply Ht | by eapply Hf].
Qed.

Lemma file_loop_done rel files : ∀ w,
  shaped plain_segment (fs w) → Forall plain_segment rel →
  fs w !! rel = Some EDir →
  ∀ f, f ∈ files → startswith f.1 "." = false → has_doc_extension f.1 = true →
       file_done env self rel (fold_left (process_file env self rel) files w) f.
Proof.
  induction files as [|f0 files IH]; intros w Hsh Hrel Hdir f Hin Hvis Hext.
  { by apply elem_of_nil in Hin. }
  cbn [fold_left]. apply elem_of_cons in Hin as [->|Hin].
  - eapply file_done_extends; [apply extends_file_loop|].
    destruct f0 as [file data]. cbn [fst snd] in *. unfold file_done.
    cbn [fst snd]. rewrite process_file_result by done.
    destruct (page_result env self rel file data); simpl.
    + split; [apply elem_of_app; right; by apply list_elem_of_singleton|].
      rewrite lookup_insert_eq. eauto.
    + apply elem_of_app. right. by apply list_elem_of_singleton.
  - apply IH; [by apply shaped_process_file | done | | done..].
    by apply (extends_process_file env self rel w f0).
Qed.

Lemma write_index_result rel items w :
  shaped plain_segment (fs w) → fs w !! rel = Some EDir →
  write_index env self rel items w
  = match index_result env self rel items with
    | Ok page =>
        {| fs := <[index_target rel := EFile page]> (fs w);
           trace := trace w ++ [IndexWritten rel (index_target rel)] |}
    | Raise e => {| fs := fs w; trace := trace w ++ [IndexFailed rel e] |}
    end.
Proof.
  intros Hsh Hrel. unfold write_index, index_result. rewrite write_text_ok.
  - by destruct (write_error env _).
  - by apply (shaped_not_dir _ rel "index").
  - unfold index_target, joinpath. by rewrite parent_snoc.
Qed.

Lemma dir_done_extends rel items w w' :
  extends w w' → dir_done env self rel items w → dir_done env self rel items w'.
Proof.
  intros Hext [Hfiles Hidx]. split.
  - intros file data Hin Hvis Hx.
    apply (file_done_extends rel w w' (file, data) Hext).
    by apply Hfiles.
  - destruct Hext as (Ht & Hf & _).
    destruct (index_result env self rel items); [|by apply Ht].
    destruct Hidx as [Hev [c Hc]]. split; [by apply Ht | by eapply Hf].
Qed.

(** No file of a shaped output is in the way of a plain directory. *)
Lemma shaped_no_file_on_path (m : gmap path entry) (rel q : path) c :
  shaped plain_segment m → Forall plain_segment rel →
  q `prefix_of` rel → m !! q ≠ Some (EFile c).
Proof.
  intros (_ & Hfiles & _) Hrel [k ->] Hq.
  apply Forall_app in Hrel as [Hq' _].
  destruct (Hfiles _ _ Hq) as [->|(r & x & -> & _ & Hx & _)].
  - by apply Forall_singleton in Hq' as [? _].
  - apply Forall_app in Hq' as [_ Hx']. apply Forall_singleton in Hx' as [_ ?].
    congruence.
Qed.

Lemma visit_done w rel items :
  shaped plain_segment (fs w) → Forall plain_segment rel →
  skipped self rel = false →
  ∃ w', visit env self w (rel, items) = Ok w' ∧ dir_done env self rel items w'.
Proof.
  intros Hsh Hrel Hskip. unfold visit. unfold skipped in Hskip.
  apply orb_false_iff in Hskip as [-> ->].
  destruct (mkdir_parents_succeeds (length rel) (fs w) rel) as [m Hmk];
    [done | by destruct Hsh | |].
  { intros q c Hq. by eapply shaped_no_file_on_path. }
  rewrite Hmk. simpl. eexists. split; [done|].
  destruct (mkdir_parents_inv _ _ _ _ Hmk) as (Hdir & _ & _).
  pose (w1 := {| fs := m; trace := trace w |}).
  assert (Hsh1 : shaped plain_segment (fs w1)) by (by eapply shaped_mkdir).
  pose (w2 := fold_left (process_file env self rel) (files_of items) w1).
  assert (Hsh2 : shaped plain_segment (fs w2)) by (by apply shaped_file_loop).
  assert (Hdir2 : fs w2 !! rel = Some EDir).
  { by apply (extends_file_loop env self rel (files_of items) w1). }
  fold w1. fold w2. split.
  - intros file data Hin Hvis Hext.
    apply (file_done_extends rel w2 _ (file, data));
      [apply extends_write_index|].
    by apply (file_loop_done rel (files_of items) w1).
  - rewrite write_index_result by done.
    destruct (index_result env self rel items); simpl.
    + split; [apply elem_of_app; right; by apply list_elem_of_singleton|].
      rewrite lookup_insert_eq. eauto.
    + apply elem_of_app. right. by apply list_elem_of_singleton.
Qed.

Lemma walk_loop_done items : ∀ w,
  shaped plain_segment (fs w) →
  Forall (λ item, skipped self item.1 = false → Forall plain_segment item.1)
         items →
  ∃ w', walk_loop env self items w = Completed w' ∧ extends w w'
        ∧ ∀ rel its, (rel, its) ∈ items → skipped self rel = false →
                     dir_done env self rel its w'.
Proof.
  induction items as [|[rel its] items IH]; intros w Hsh Hitems.
  { exists w. split_and!; [done | apply extends_refl|].
    intros rel its Hin. by apply elem_of_nil in Hin. }
  apply Forall_cons in Hitems as [Hrel Hitems]. simpl in Hrel.
  rewrite walk_loop_cons.
  destruct (skipped self rel) eqn:Hskip.
  - destruct (visit_cases env self w rel its) as [[_ ->]|[? _]]; [|congruence].
    destruct (IH w Hsh Hitems) as (w' & -> & Hext & Hdone).
    exists w'. split_and!; [done..|].
    intros r i Hin Hr. apply elem_of_cons in Hin as [[= -> ->]|Hin];
      [congruence | by apply Hdone].
  - destruct (visit_done w rel its Hsh (Hrel eq_refl) Hskip) as (w1 & Hv & Hd).
    rewrite Hv.
    assert (Hsh1 : shaped plain_segment (fs w1)).
    { eapply shaped_visit; [exact Hsh | | exact Hv]. auto. }
    destruct (IH w1 Hsh1 Hitems) as (w' & -> & Hext & Hdone).
    exists w'. split_and!; [done| |].
    + eapply extends_trans; [by eapply extends_visit | done].
    + intros r i Hin Hr. apply elem_of_cons in Hin as [[= -> ->]|Hin];
        [by eapply dir_done_extends | by apply Hdone].
Qed.

(** In a tree without directories named like pages, the run completes
    and every visited directory has what it is owed. *)
Lemma generate_site_done top prior :
  no_page_named_dirs top →
  ∃ w, generate_site env self top prior = Completed w
       ∧ ∀ rel its, (rel, its) ∈ os_walk top → skipped self rel = false →
                    dir_done env self rel its w.
Proof.
  intros Hdirs. unfold generate_site.
  destruct (walk_loop_done (os_walk top) {| fs := purged prior; trace := [] |})
    as (w & Hw & _ & Hdone).
  - apply shaped_purged.
  - unfold no_page_named_dirs in Hdirs. eapply Forall_impl; [exact Hdirs|].
    intros [rel its] Hhtml Hskip. simpl in *.
    unfold skipped in Hskip. apply orb_false_iff in Hskip as [Hname _].
    apply skip_by_name_false in Hname.
    rewrite Forall_forall in Hhtml, Hname. apply Forall_forall.
    intros seg Hseg. split; [by apply Hname | by apply Hhtml].
  - by exists w.
Qed.

End Outcomes.

(** ** Failures of single files *)

Lemma page_failure_step (env : environment) (self : FastSiteGenerator)
    (w : world) (rel : path) file data e :
  startswith file "." = false → has_doc_extension file = true →
  page_result env self rel file data = Raise e →
  process_file env self rel w (file, data)
  = {| fs := fs w;
       trace := trace w ++ [PageFailed (rel_file_path_of rel file) e] |}.
Proof.
  intros Hvis Hext. unfold page_result, process_file. rewrite Hvis, Hext.
  destruct (process_markdown env self data file _) as [page|e']; simpl.
  - unfold write_text. destruct (write_error env _); [|done]. by intros [= ->].
  - by intros [= ->].
Qed.



(** ** Sources and their pages *)

Lemma page_target_eq (d1 d2 : path) f1 f2 :
  page_target d1 f1 = page_target d2 f2 ↔ d1 = d2 ∧ stem f1 = stem f2.
Proof.
  unfold page_target, joinpath. split.
  - intros H. apply app_inj_tail in H as [-> H].
    split; [done|]. by apply app_inv_tail_s in H.
  - by intros [-> ->].
Qed.

Lemma page_index_target_eq (d1 d2 : path) f :
  page_target d1 f = index_target d2 ↔ d1 = d2 ∧ stem f = "index".
Proof.
  unfold page_target, index_target, joinpath. split.
  - intros H. apply app_inj_tail in H as [-> H].
    split; [done|]. by apply (app_inv_tail_s ".html" _ "index").
  - by intros [-> ->].
Qed.

Lemma index_target_eq (d1 d2 : path) :
  index_target d1 = index_target d2 ↔ d1 = d2.
Proof.
  unfold index_target, joinpath. split; [|by intros ->].
  intros H. by apply app_inj_tail in H as [-> _].
Qed.




(** ** Segments of output paths and of links *)

Section Segments.

Lemma contains_char_app a s t :
  contains_char a (s +:+ t) = contains_char a s || contains_char a t.
Proof.
  induction s as [|c s IH]; [done|]. rewrite app_String. simpl.
  by rewrite IH, orb_assoc.
Qed.

Lemma contains_char_free a s :
  contains_char a s = false → ∀ pre post, s ≠ pre +:+ String a post.
Proof.
  intros Hs pre post ->. rewrite contains_char_app in Hs. simpl in Hs.
  rewrite Ascii.eqb_refl in Hs. by destruct (contains_char a pre).
Qed.

Lemma up_link_segments n :
  link_segments (join "/" (replicate (S n) "..") +:+ "/index.html")
  = replicate (S n) ".." ++ ["index.html"].
Proof.
  unfold link_segments. induction n as [|n IH]; [done|].
  change (join "/" (replicate (S (S n)) ".."))
    with (".." +:+ String "/" (join "/" (replicate (S n) ".."))).
  rewrite app_assoc_s.
  change (String "/" (join "/" (replicate (S n) "..")) +:+ "/index.html")
    with (String "/" (join "/" (replicate (S n) "..") +:+ "/index.html")).
  rewrite split_on_app; [by rewrite IH|].
  by apply contains_char_free.
Qed.

Lemma marker_segments (l : list string) x :
  x ∈ ["."; ".."; "index.html"] →
  Forall (λ seg, seg ∈ ["."; ".."; "index.html"]) l →
  Forall (λ seg, seg ∈ ["."; ".."; "index.html"]) (l ++ [x]).
Proof. intros Hx Hl. apply Forall_app. split; [done|]. by apply Forall_singleton. Qed.

Lemma replicate_markers n :
  Forall (λ seg, seg ∈ ["."; ".."; "index.html"]) (replicate n "..").
Proof.
  apply Forall_replicate. apply elem_of_cons. right. apply elem_of_cons. by left.
Qed.

Lemma index_marker : "index.html" ∈ ["."; ".."; "index.html"].
Proof. do 2 (apply elem_of_cons; right). by apply list_elem_of_singleton. Qed.

(** The links of a breadcrumb are made of the markers "." and ".."
    and of the page name "index.html". *)
Lemma breadcrumb_link_segments (p : path) c :
  c ∈ breadcrumb_trail p →
  Forall (λ seg, seg ∈ ["."; ".."; "index.html"]) (link_segments (link c)).
Proof.
  unfold breadcrumb_trail. intros Hc. apply elem_of_cons in Hc as [->|Hc].
  - simpl. destruct (length p) as [|n].
    + apply Forall_cons. split; [apply elem_of_cons; by left|].
      apply Forall_singleton, index_marker.
    + unfold root_relative_prefix. rewrite up_link_segments.
      apply marker_segments; [apply index_marker | apply replicate_markers].
  - apply list_elem_of_lookup in Hc as [i Hi].
    rewrite list_lookup_imap in Hi.
    destruct (p !! i) as [s|]; [|done]. injection Hi as <-. simpl.
    unfold ancestor_link. destruct (length p - 1 - i) as [|n].
    + apply Forall_singleton, index_marker.
    + rewrite up_link_segments.
      apply marker_segments; [apply index_marker | apply replicate_markers].
Qed.

Lemma breadcrumb_labels (p : path) c :
  c ∈ drop 1 (breadcrumb_trail p) → label c ∈ p.
Proof.
  unfold breadcrumb_trail. simpl. rewrite drop_0. intros Hc.
  apply list_elem_of_lookup in Hc as [i Hi]. rewrite list_lookup_imap in Hi.
  destruct (p !! i) as [s|] eqn:Hs; [|done]. injection Hi as <-. simpl.
  by eapply list_elem_of_lookup_2.
Qed.

Lemma stem_slash_free nm : slash_free nm → slash_free (stem nm +:+ ".html").
Proof.
  unfold slash_free. intros Hnm. rewrite <- (stem_suffix nm) in Hnm.
  rewrite contains_char_app in Hnm. apply orb_false_iff in Hnm as [Hs _].
  by rewrite contains_char_app, Hs.
Qed.

End Segments.




(** With an output directory named like a page, a generated page has
    the output directory's own name. *)
Lemma page_named_like_output_directory :
  name (output_dir sample_generator_index) = "index.html"
  ∧ is_Some (fs (final (generate_site sample_env sample_generator_index
                          sample_guide ∅)) !! ["index.html"]).
Proof. split; [done|]. vm_compute. eauto. Qed.

(** * Further properties of the code *)

(** ** The attempts of a run *)

Section Attempts.

Variable env : environment.
Variable self : FastSiteGenerator.

Lemma process_file_attempts rel w f :
  attempt_of <$> trace (process_file env self rel w f)
  = (attempt_of <$> trace w)
      ++ (if negb (startswith f.1 ".") && has_doc_extension f.1
          then [PageOf (rel_file_path_of rel f.1)] else []).
Proof.
  destruct f as [file data]. cbn [fst].
  destruct (process_file_cases env self rel w file data)
    as [[H ->]|(Hv & Hx & [(page & m & _ & _ & ->)|(e & _ & ->)])].
  - destruct H as [H|H]; rewrite H; [|rewrite andb_false_r];
      by rewrite app_nil_r.
  - rewrite Hv, Hx. simpl. by rewrite fmap_app.
  - rewrite Hv, Hx. simpl. by rewrite fmap_app.
Qed.

Lemma file_loop_attempts rel files : ∀ w,
  attempt_of <$> trace (fold_left (process_file env self rel) files w)
  = (attempt_of <$> trace w)
      ++ (PageOf ∘ rel_file_path_of rel
            <$> omap (λ f : string * result string,
                        if negb (startswith f.1 ".") && has_doc_extension f.1
                        then Some f.1 else None) files).
Proof.
  induction files as [|f files IH]; intros w; cbn [fold_left].
  { by rewrite app_nil_r. }
  rewrite IH, process_file_attempts, <- app_assoc. f_equal.
  destruct (negb (startswith f.1 ".") && has_doc_extension f.1) eqn:E;
    simpl; by rewrite E.
Qed.

Lemma write_index_attempts rel items w :
  attempt_of <$> trace (write_index env self rel items w)
  = (attempt_of <$> trace w) ++ [IndexOf rel].
Proof.
  unfold write_index. destruct (write_text _ _ _ _); simpl; by rewrite fmap_app.
Qed.

Lemma visit_attempts w w' item :
  visit env self w item = Ok w' →
  attempt_of <$> trace w' = (attempt_of <$> trace w) ++ due_attempts self item.
Proof.
  destruct item as [rel items]. unfold visit, due_attempts, skipped. cbn [fst snd].
  destruct (skip_by_name self rel); [intros [= <-]; by rewrite app_nil_r|].
  destruct (skip_output self _); [intros [= <-]; by rewrite app_nil_r|].
  destruct (mkdir_parents _ _ _) as [m|e]; [|done]. simpl. intros [= <-].
  by rewrite write_index_attempts, file_loop_attempts, <- app_assoc.
Qed.

(** The attempts of a walk are those due to the directories it got
    through, in their order: all of them when it completes. *)
Lemma walk_loop_attempts items : ∀ w,
  ∃ n, n ≤ length items
       ∧ attempt_of <$> trace (final (walk_loop env self items w))
         = (attempt_of <$> trace w)
             ++ concat (due_attempts self <$> take n items)
       ∧ (∀ w', walk_loop env self items w = Completed w' → n = length items).
Proof.
  induction items as [|item items IH]; intros w.
  { exists 0. split_and!; [done | by rewrite app_nil_r | done]. }
  rewrite walk_loop_cons.
  destruct (visit env self w item) as [w1|e] eqn:Hv.
  - destruct (IH w1) as (n & Hn & Ht & Hc). exists (S n).
    split_and!; [simpl; lia | | ].
    + rewrite Ht, (visit_attempts w w1 item Hv). simpl.
      by rewrite <- app_assoc.
    + intros w' Hw'. simpl. f_equal. by eapply Hc.
  - exists 0. split_and!; [simpl; lia | by rewrite app_nil_r | done].
Qed.

End Attempts.

(** X1: every run makes exactly the attempts the walk calls for, once
    each and in the order of the walk: for each directory that is not
    skipped, one attempt per visible file with a documentation
    extension, in the order of the directory, then one at the index.
    A run that aborts has made the attempts of the directories before
    the one it aborted at; no other file or directory is ever
    attempted. *)
Theorem attempts_follow_the_walk (env : environment) (self : FastSiteGenerator)
    (top : list node) (prior : gmap path entry) :
  ∃ n, n ≤ length (os_walk top)
       ∧ attempt_of <$> trace (final (generate_site env self top prior))
         = concat (due_attempts self <$> take n (os_walk top))
       ∧ (∀ w, generate_site env self top prior = Completed w →
               attempt_of <$> trace w
               = concat (due_attempts self <$> os_walk top)).
Proof.
  unfold generate_site.
  destruct (walk_loop_attempts env self (os_walk top)
              {| fs := purged prior; trace := [] |}) as (n & Hn & Ht & Hc).
  exists n. split_and!; [done | done |].
  intros w Hw. rewrite Hw in Ht. simpl in Ht. rewrite Ht, (Hc w Hw).
  by rewrite firstn_all.
Qed.

(** ** What the output directory holds *)

Section Accounting.

Variable env : environment.
Variable self : FastSiteGenerator.

Lemma accounted_write (w : world) (rel : path) x content m ev :
  accounted w → x ≠ ".nojekyll" →
  write_text env (fs w) (rel ++ [x]) content = Ok m →
  written ev = Some (rel ++ [x]) →
  accounted {| fs := m; trace := trace w ++ [ev] |}.
Proof.
  intros (Hmark & Hfiles & Hevs) Hx Hw Hev.
  apply write_text_inv in Hw as (-> & _ & _). split_and!; simpl.
  - rewrite lookup_insert_ne; [done|].
    intros H. destruct rel as [|? [|??]]; simplify_eq/=.
  - intros p c. rewrite lookup_insert. case_decide as Hd.
    + intros _. right. exists ev. split; [|by rewrite <- Hd].
      apply elem_of_app. right. by apply list_elem_of_singleton.
    + intros Hp. destruct (Hfiles p c Hp) as [?|(ev' & Hin & Hw')]; [by left|].
      right. exists ev'. split; [|done]. apply elem_of_app. by left.
  - intros ev' p Hin Hw'. rewrite lookup_insert. case_decide; [eauto|].
    apply elem_of_app in Hin as [Hin|Hin]; [by eapply Hevs|].
    apply list_elem_of_singleton in Hin as ->. congruence.
Qed.

Lemma accounted_fail (w : world) ev :
  accounted w → written ev = None →
  accounted {| fs := fs w; trace := trace w ++ [ev] |}.
Proof.
  intros (Hmark & Hfiles & Hevs) Hev. split_and!; simpl; [done| |].
  - intros p c Hp. destruct (Hfiles p c Hp) as [?|(ev' & Hin & Hw')]; [by left|].
    right. exists ev'. split; [|done]. apply elem_of_app. by left.
  - intros ev' p Hin Hw'. apply elem_of_app in Hin as [Hin|Hin]; [by eapply Hevs|].
    apply list_elem_of_singleton in Hin as ->. congruence.
Qed.

Lemma page_name_not_marker s : s +:+ ".html" ≠ ".nojekyll".
Proof.
  intros H. pose proof (endswith_app s ".html") as He. by rewrite H in He.
Qed.

Lemma accounted_process_file rel w f :
  accounted w → accounted (process_file env self rel w f).
Proof.
  intros Hacc. destruct f as [file data].
  destruct (process_file_cases env self rel w file data)
    as [[_ ->]|(_ & _ & [(page & m & _ & Hw & ->)|(e & _ & ->)])]; [done| |].
  - unfold page_target, joinpath in *.
    by eapply accounted_write; [done | apply page_name_not_marker | exact Hw |].
  - by apply accounted_fail.
Qed.

Lemma accounted_file_loop rel files : ∀ w,
  accounted w → accounted (fold_left (process_file env self rel) files w).
Proof.
  induction files as [|f files IH]; intros w Hacc; [done|].
  cbn [fold_left]. by apply IH, accounted_process_file.
Qed.

Lemma accounted_write_index rel items w :
  accounted w → accounted (write_index env self rel items w).
Proof.
  intros Hacc. unfold write_index.
  destruct (write_text env (fs w) _ _) as [m|e] eqn:Hw.
  - unfold index_target, joinpath in *.
    by eapply accounted_write; [done | | exact Hw |].
  - by apply accounted_fail.
Qed.

Lemma accounted_visit w w' item :
  accounted w → visit env self w item = Ok w' → accounted w'.
Proof.
  intros Hacc. destruct item as [rel items]. unfold visit.
  destruct (skip_by_name self rel); [by intros [= <-]|].
  destruct (skip_output self _); [by intros [= <-]|].
  destruct (mkdir_parents _ _ _) as [m|e] eqn:Hmk; [|done]. simpl.
  intros [= <-]. apply accounted_write_index, accounted_file_loop.
  destruct (mkdir_parents_inv _ _ _ _ Hmk) as (_ & Hkeep & Hnew).
  destruct Hacc as (Hmark & Hfiles & Hevs). split_and!; simpl.
  - by apply Hkeep.
  - intros p c Hp. destruct (Hnew _ _ Hp) as [Hold|[? _]]; [|done].
    by apply (Hfiles p c).
  - intros ev p Hin Hw. destruct (Hevs ev p Hin Hw) as [c Hc].
    exists c. by apply Hkeep.
Qed.

Lemma accounted_walk_loop items : ∀ w,
  accounted w → accounted (final (walk_loop env self items w)).
Proof.
  induction items as [|item items IH]; intros w Hacc; [done|].
  rewrite walk_loop_cons.
  destruct (visit env self w item) as [w'|e] eqn:Hv; [|done].
  by eapply IH, accounted_visit.
Qed.

Lemma generate_site_accounted top prior :
  accounted (final (generate_site env self top prior)).
Proof.
  unfold generate_site. apply accounted_walk_loop. split_and!; simpl.
  - done.
  - intros q c. unfold purged. rewrite lookup_insert. case_decide as Hd.
    + intros _. by left.
    + rewrite lookup_insert. case_decide; [done|]. by rewrite lookup_empty.
  - intros ev q Hin. by apply elem_of_nil in Hin.
Qed.

End Accounting.


(** ** Directories and pages in each other's place *)

Section Clash.

Variable env : environment.
Variable self : FastSiteGenerator.

Lemma visit_mirrors w w' rel items :
  skipped self rel = false → visit env self w (rel, items) = Ok w' →
  fs w' !! rel = Some EDir.
Proof.
  intros Hskip Hv.
  destruct (visit_cases env self w rel items) as [[? _]|[_ _]]; [congruence|].
  unfold visit, skipped in *. apply orb_false_iff in Hskip as [Hn Ho].
  rewrite Hn, Ho in Hv.
  destruct (mkdir_parents _ _ _) as [m|e] eqn:Hmk; [|done]. simpl in Hv.
  injection Hv as <-.
  destruct (mkdir_parents_inv _ _ _ _ Hmk) as (Hdir & _ & _).
  apply (extends_write_index env self), (extends_file_loop env self).
  exact Hdir.
Qed.

Lemma walk_loop_mirrors items : ∀ w w',
  walk_loop env self items w = Completed w' →
  ∀ rel its, (rel, its) ∈ items → skipped self rel = false →
             fs w' !! rel = Some EDir.
Proof.
  induction items as [|item items IH]; intros w w' Hw rel its Hin Hskip.
  { by apply elem_of_nil in Hin. }
  rewrite walk_loop_cons in Hw.
  destruct (visit env self w item) as [w1|e] eqn:Hv; [|done].
  apply elem_of_cons in Hin as [<-|Hin]; [|by eapply IH].
  assert (Hext : extends w1 w').
  { clear -Hw. revert w1 Hw. induction items as [|it items IH]; intros w1 Hw.
    - injection Hw as <-. apply extends_refl.
    - rewrite walk_loop_cons in Hw.
      destruct (visit env self w1 it) as [w2|e] eqn:Hv; [|done].
      eapply extends_trans; [by eapply extends_visit | by apply IH]. }
  apply Hext. by eapply visit_mirrors.
Qed.

End Clash.

(** X3: the creation of a mirrored directory is the one step of the
    walk outside every [try]. When a file stands where the mirror of a
    directory must be created, the walk aborts there with
    FileExistsError: the output and the reports stay as they were and
    the remaining directories are never visited. Hence, in a run that
    completes, every directory that is not skipped is mirrored as a
    directory and no page was written at its path. *)
Theorem file_in_place_of_directory_aborts (env : environment)
    (self : FastSiteGenerator) (top : list node) (prior : gmap path entry)
    (w : world) (rel : path) (items : list node)
    (rest : list (path * list node)) (c : string) :
  skipped self rel = false → fs w !! rel = Some (EFile c) →
  walk_loop env self ((rel, items) :: rest) w = Aborted w "FileExistsError"
  ∧ (∀ w' r its ev,
       generate_site env self top prior = Completed w' →
       (r, its) ∈ os_walk top → skipped self r = false → ev ∈ trace w' →
       fs w' !! r = Some EDir ∧ written ev ≠ Some r).
Proof.
  intros Hskip Hfile. split.
  - rewrite walk_loop_cons. unfold visit, skipped in *.
    apply orb_false_iff in Hskip as [-> ->].
    destruct rel; simpl; by rewrite Hfile.
  - intros w' r its ev Hrun Hin Hr Hev.
    assert (Hdir : fs w' !! r = Some EDir).
    { unfold generate_site in Hrun. by eapply walk_loop_mirrors. }
    split; [done|]. intros Hw.
    destruct (generate_site_accounted env self top prior) as (_ & _ & Hevs).
    rewrite Hrun in Hevs. simpl in Hevs.
    destruct (Hevs ev r Hev Hw) as [c' Hc']. congruence.
Qed.

Lemma file_in_place_of_directory_aborts_witness :
  skipped sample_generator ["x.html"] = false ∧
  ∃ w, generate_site sample_env sample_generator sample_clash ∅
       = Aborted w "FileExistsError"
       ∧ trace w = [PageWritten ["x.md"] ["x.html"];
                    IndexWritten [] ["index.html"]]
       ∧ walk_loop sample_env sample_generator
           [(["x.html"], [File "y.md" (Ok "# Y")]);
            (["later"], [File "z.md" (Ok "# Z")])] w
         = Aborted w "FileExistsError".
Proof.
  split; [reflexivity|].
  destruct (generate_site sample_env sample_generator sample_clash ∅)
    as [w|w e] eqn:Hrun; [by vm_compute in Hrun|].
  exists w.
  assert (He : e = "FileExistsError")
    by (vm_compute in Hrun; by injection Hrun as _ <-).
  subst e. split; [done|].
  assert (Hw : w = final (generate_site sample_env sample_generator
                            sample_clash ∅)) by (by rewrite Hrun).
  assert (Htr : trace w = [PageWritten ["x.md"] ["x.html"];
                           IndexWritten [] ["index.html"]])
    by (rewrite Hw; by vm_compute).
  split; [exact Htr|].
  assert (Hc : ∃ c, fs w !! ["x.html"] = Some (EFile c)).
  { destruct (generate_site_accounted sample_env sample_generator
                sample_clash ∅) as (_ & _ & H).
    rewrite Hrun in H. simpl in H.
    apply (H (PageWritten ["x.md"] ["x.html"])); [|done].
    rewrite Htr. apply elem_of_cons. by left. }
  destruct Hc as [c Hc].
  by apply (file_in_place_of_directory_aborts sample_env sample_generator
              sample_clash ∅ w ["x.html"] _ _ c).
Defined.

(** ** The order and the empty case of a listing *)

Section ListingOrder.

Variable self : FastSiteGenerator.

Lemma node_le_trans : Transitive node_le.
Proof. intros a b c. unfold node_le. apply transitivity. Qed.

Lemma node_le_total : Total node_le.
Proof. intros a b. unfold node_le. apply total, _. Qed.

Lemma listed_dir_name item e : listed_dir self item = Some e → e_name e = node_name item.
Proof.
  unfold listed_dir. destruct (listing_skips _ _); [done|].
  destruct (is_dir item); [|done]. by intros [= <-].
Qed.

Lemma listed_file_name item e : listed_file self item = Some e → e_name e = node_name item.
Proof.
  unfold listed_file. destruct (listing_skips _ _); [done|].
  destruct (is_dir item); [done|]. case_bool_decide; [|done]. by intros [= <-].
Qed.

Lemma sorted_names_omap (f : node → option listing_entry) (l : list node) :
  (∀ item e, f item = Some e → e_name e = node_name item) →
  StronglySorted node_le l →
  StronglySorted String.le (e_name <$> omap f l).
Proof.
  intros Hf Hl. induction Hl as [|item l Hl IH Hall]; [constructor|].
  simpl. destruct (f item) as [e|] eqn:He; [|exact IH].
  simpl. constructor; [exact IH|].
  apply Forall_forall. intros nm Hnm.
  apply list_elem_of_fmap in Hnm as (e' & -> & He').
  apply list_elem_of_omap in He' as (item' & Hin & He').
  rewrite (Hf _ _ He), (Hf _ _ He').
  rewrite Forall_forall in Hall. by apply Hall.
Qed.

Lemma listing_nothing items :
  (∀ item, item ∈ items →
     listed_dir self item = None ∧ listed_file self item = None) →
  listing_entries self items = ([], []).
Proof.
  intros Hnone. rewrite listing_entries_omap.
  assert (Hall : ∀ item, item ∈ merge_sort node_le items →
            listed_dir self item = None ∧ listed_file self item = None).
  { intros item Hin. apply Hnone. by rewrite merge_sort_Permutation in Hin. }
  induction (merge_sort node_le items) as [|item l IH]; [done|].
  simpl. destruct (Hall item) as [-> ->]; [apply elem_of_cons; by left|].
  apply IH. intros it Hit. apply Hall, elem_of_cons. by right.
Qed.

End ListingOrder.

(** X4: a listing is in name order: the listed subdirectories, and
    likewise the listed files, come by ascending name (the order of
    [sorted]), wherever they stand in the directory. *)
Theorem listing_is_sorted_by_name (self : FastSiteGenerator)
    (items : list node) :
  StronglySorted String.le (e_name <$> (listing_entries self items).1)
  ∧ StronglySorted String.le (e_name <$> (listing_entries self items).2).
Proof.
  rewrite listing_entries_omap. simpl. split.
  - apply sorted_names_omap; [apply listed_dir_name|].
    apply (@StronglySorted_merge_sort _ node_le _ node_le_trans node_le_total).
  - apply sorted_names_omap; [apply listed_file_name|].
    apply (@StronglySorted_merge_sort _ node_le _ node_le_trans node_le_total).
Qed.

(** X5: a directory in which nothing is to be listed (it is empty, or
    all its entries are hidden, named like the output directory, or
    files without a documentation suffix) gets a page with the
    placeholder "No files found in this directory." and no list. *)
Theorem empty_listing_has_placeholder (env : environment)
    (self : FastSiteGenerator) (items : list node) (rel : path) :
  (∀ item, item ∈ items →
     startswith (node_name item) "." = true
     ∨ node_name item = name (output_dir self)
     ∨ is_dir item = false
       ∧ lower (suffix (node_name item)) ∉ [".md"; ".txt"]) →
  create_directory_listing env self items rel
  = render_page env
      (if decide (name rel ≠ "") then name rel else "Home")
      (create_breadcrumb rel)
      ((("<h1>📚 "
           +:+ Text.title
                 (replace_char "-" " "
                    (replace_char "_" " "
                       (if decide (name rel ≠ "") then name rel
                        else "Documentation")))
           +:+ "</h1>")
          +:+ "<p style='color: #94a3b8; margin-bottom: 2rem;'>Browse through the available documentation files and folders.</p>")
         +:+ "<p style=" +:+ dq +:+ "color: #64748b;" +:+ dq
         +:+ ">No files found in this directory.</p>")
      (now env rel)
      (get_relative_path_to_root rel +:+ "/index.html").
Proof.
  intros Hnone. unfold create_directory_listing.
  rewrite (listing_nothing self items); [done|].
  intros item Hin. unfold listed_dir, listed_file, listing_skips.
  destruct (Hnone item Hin) as [->|[->|[-> Hsuf]]]; [done| |].
  - rewrite String.eqb_refl, orb_true_r. done.
  - destruct (_ || _); [done|]. by rewrite bool_decide_eq_false_2.
Qed.

Lemma empty_listing_has_placeholder_witness :
  (∀ item, item ∈ [File "notes.png" (Ok ""); Dir ".git" []; Dir "docs" []] →
     startswith (node_name item) "." = true
     ∨ node_name item = name (output_dir sample_generator)
     ∨ is_dir item = false
       ∧ lower (suffix (node_name item)) ∉ [".md"; ".txt"]) ∧
  create_directory_listing sample_env sample_generator
    [File "notes.png" (Ok ""); Dir ".git" []; Dir "docs" []] []
  = render_page sample_env "Home" (create_breadcrumb [])
      ("<h1>📚 Documentation</h1><p style='color: #94a3b8; margin-bottom: 2rem;'>Browse through the available documentation files and folders.</p><p style="
         +:+ dq +:+ "color: #64748b;" +:+ dq
         +:+ ">No files found in this directory.</p>")
      "2024-01-01 00:00:00" "./index.html".
Proof.
  assert (H : ∀ item,
            item ∈ [File "notes.png" (Ok ""); Dir ".git" []; Dir "docs" []] →
            startswith (node_name item) "." = true
            ∨ node_name item = name (output_dir sample_generator)
            ∨ is_dir item = false
              ∧ lower (suffix (node_name item)) ∉ [".md"; ".txt"]).
  { intros item Hin. repeat (apply elem_of_cons in Hin as [->|Hin]).
    - right. right. split; [done|]. intros Hx.
      repeat (apply elem_of_cons in Hx as [Hx|Hx]; [discriminate|]).
      by apply elem_of_nil in Hx.
    - by left.
    - right. by left.
    - by apply elem_of_nil in Hin. }
  split; [exact H|].
  rewrite (empty_listing_has_placeholder sample_env sample_generator _ [] H).
  reflexivity.
Defined.

(** X6: of the command line, [main] reads the first two arguments
    only: the third is parsed to a flag that changes nothing, and what
    follows is not read at all. A missing source directory is ".", a
    missing output directory is "docs". *)
Theorem main_reads_two_arguments (env : environment) (argv : list string)
    (top : list node) (prior : gmap path entry) :
  main env argv top prior = main env (take 3 argv) top prior
  ∧ (parse_args argv).1 = (default "." (argv !! 1), default "docs" (argv !! 2))
  ∧ ((parse_args argv).2 = false ↔
     ∃ flag, argv !! 3 = Some flag ∧ lower flag ∈ ["false"; "0"; "no"]).
Proof.
  destruct argv as [|a0 [|a1 [|a2 [|a3 rest]]]]; split_and!; try done;
    try (split; [done | by intros (? & ? & _)]).
  unfold parse_args. simpl. split.
  - intros H. apply negb_false_iff, bool_decide_eq_true in H. by exists a3.
  - intros (flag & [= <-] & H). by rewrite bool_decide_eq_true_2.
Qed.

(** ** The two extension tests *)

Section ExtensionTests.

Lemma lower_ascii_dot c : Ascii.eqb (lower_ascii c) "." = Ascii.eqb c ".".
Proof. by destruct c as [[] [] [] [] [] [] [] []]. Qed.

Lemma contains_dot_lower s : contains_char "." (lower s) = contains_char "." s.
Proof.
  induction s as [|c s IH]; [done|]. simpl. fold (lower s).
  by rewrite lower_ascii_dot, IH.
Qed.

Lemma length_map_string f s : String.length (map_string f s) = String.length s.
Proof. induction s as [|c s IH]; [done|]. simpl. by rewrite IH. Qed.

(** A lower-cased name that splits in two comes from a name that
    splits in the same place. *)
Lemma lower_app_inv pre : ∀ nm suf,
  lower nm = pre +:+ suf →
  ∃ a b, nm = a +:+ b ∧ lower a = pre ∧ lower b = suf.
Proof.
  induction pre as [|c pre IH]; intros nm suf H.
  - by exists "", nm.
  - destruct nm as [|c' nm]; [done|]. rewrite app_String in H.
    injection H as Hc H. apply IH in H as (a & b & -> & Ha & Hb).
    exists (String c' a), b. split_and!; [done| |done].
    unfold lower in *. simpl. by rewrite Hc, Ha.
Qed.

Lemma rfind_dot_none s : contains_char "." s = false → rfind_dot s = None.
Proof.
  induction s as [|c s IH]; [done|]. simpl. intros H.
  apply orb_false_iff in H as [Hc Hs]. by rewrite IH, Hc.
Qed.

Lemma rfind_dot_app a b i :
  rfind_dot b = Some i → rfind_dot (a +:+ b) = Some (String.length a + i).
Proof.
  intros Hb. induction a as [|c a IH]; [done|].
  rewrite app_String. simpl. by rewrite IH.
Qed.

Lemma substring_app_r a : ∀ n b,
  substring (String.length a) n (a +:+ b) = substring 0 n b.
Proof. induction a as [|c a IH]; intros n b; [done|]. rewrite app_String. apply IH. Qed.

(** The suffix of a name that ends in a dot and a dot-free, non-empty
    extension is that ending. *)
Lemma suffix_of_extension a ext :
  a ≠ "" → ext ≠ "" → contains_char "." ext = false →
  suffix (a +:+ String "." ext) = String "." ext.
Proof.
  intros Ha Hext Hdot. unfold suffix.
  rewrite (rfind_dot_app a (String "." ext) 0).
  2: { simpl. by rewrite rfind_dot_none. }
  rewrite Nat.add_0_r.
  assert (Hlen : String.length (a +:+ String "." ext)
                 = String.length a + S (String.length ext)).
  { by rewrite length_app_s. }
  assert (Hpos : 0 < String.length a) by (destruct a; [done | simpl; lia]).
  assert (Hext' : 0 < String.length ext) by (destruct ext; [done | simpl; lia]).
  assert (Hcond : (0 <? String.length a)
                  && (String.length a <? String.length (a +:+ String "." ext) - 1)
                  = true).
  { apply andb_true_iff. split; apply Nat.ltb_lt; lia. }
  rewrite Hcond, Hlen.
  replace (String.length a + S (String.length ext) - String.length a)
    with (String.length (String "." ext)) by (simpl; lia).
  rewrite substring_app_r. apply substring_whole.
Qed.

Lemma endswith_lower_suffix nm ext :
  startswith nm "." = false → ext ≠ "" → contains_char "." ext = false →
  endswith (lower nm) (String "." ext) = true →
  lower (suffix nm) = String "." ext.
Proof.
  intros Hvis Hext Hdot Hend.
  apply endswith_iff in Hend as [pre Hpre].
  apply lower_app_inv in Hpre as (a & b & -> & _ & Hb).
  destruct b as [|c0 b]; [done|]. unfold lower in Hb. simpl in Hb.
  injection Hb as Hc0 Hb. fold (lower b) in Hb.
  assert (c0 = "."%char) as ->.
  { apply Ascii.eqb_eq. rewrite <- lower_ascii_dot, Hc0. apply Ascii.eqb_refl. }
  assert (Hbdot : contains_char "." b = false).
  { by rewrite <- contains_dot_lower, Hb. }
  assert (Hbne : b ≠ "") by (intros ->; by subst ext).
  assert (Hane : a ≠ "").
  { intros ->. by rewrite app_empty_l, startswith_cons in Hvis. }
  rewrite suffix_of_extension by done.
  unfold lower. simpl. fold (lower b). by rewrite Hb.
Qed.

Lemma has_doc_extension_suffix nm :
  startswith nm "." = false → has_doc_extension nm = true →
  lower (suffix nm) ∈ [".md"; ".txt"].
Proof.
  intros Hvis Hext. unfold has_doc_extension in Hext.
  apply orb_true_iff in Hext as [H|H].
  - apply (endswith_lower_suffix nm "md") in H as ->; [|done..].
    apply elem_of_cons. by left.
  - apply (endswith_lower_suffix nm "txt") in H as ->; [|done..].
    apply elem_of_cons. right. by apply list_elem_of_singleton.
Qed.

End ExtensionTests.

(** X7: the walker's test (the lower-cased name ends in ".md" or
    ".txt") and the listing's test (the lower-cased suffix is one of
    them) agree on every name that does not begin with ".". So a file
    of a directory has a card in the listing exactly when it is visible,
    the file loop attempts a page for it, and it is not named like the
    output directory. *)
Theorem extension_tests_agree (self : FastSiteGenerator) (items : list node)
    (nm : string) (data : result string) :
  startswith nm "." = false →
  (has_doc_extension nm = true ↔ lower (suffix nm) ∈ [".md"; ".txt"])
  ∧ (File nm data ∈ items →
     ((∃ e, e ∈ (listing_entries self items).2 ∧ e_name e = nm)
      ↔ has_doc_extension nm = true ∧ nm ≠ name (output_dir self))).
Proof.
  intros Hvis.
  assert (Hiff : has_doc_extension nm = true ↔ lower (suffix nm) ∈ [".md"; ".txt"]).
  { split; [by apply has_doc_extension_suffix | apply suffix_has_doc_extension]. }
  split; [done|]. intros Hin. split.
  - intros (e & He & Hname).
    apply listed_file_iff in He as (nm' & d & _ & _ & Hne & Hsuf & ->).
    simpl in Hname. subst nm'. split; [by apply Hiff | done].
  - intros [Hext Hne]. eexists. split.
    + apply listed_file_iff. exists nm, data. split_and!; [done..| |done].
      by apply Hiff.
    + done.
Qed.

Lemma extension_tests_agree_witness :
  startswith "Guide.TXT" "." = false ∧
  has_doc_extension "Guide.TXT" = true ∧
  lower (suffix "Guide.TXT") ∈ [".md"; ".txt"] ∧
  has_doc_extension "archive.md.bak" = false ∧
  lower (suffix "archive.md.bak") ∉ [".md"; ".txt"].
Proof.
  destruct (extension_tests_agree sample_generator [] "Guide.TXT" (Ok "")
              eq_refl) as [[H1 _] _].
  destruct (extension_tests_agree sample_generator [] "archive.md.bak" (Ok "")
              eq_refl) as [[_ H2] _].
  split_and!; [reflexivity | reflexivity | by apply H1 | reflexivity |].
  intros H. apply H2 in H. discriminate.
Defined.

(** ** The walk of a well-formed tree *)

Section WalkFacts.

Lemma node_ind' (P : node → Prop) :
  (∀ nm d, P (File nm d)) →
  (∀ nm ch, Forall P ch → P (Dir nm ch)) →
  ∀ n, P n.
Proof.
  intros HF HD. fix IH 1. intros [nm d|nm ch]; [apply HF|].
  apply HD. induction ch as [|c ch IHch]; constructor; [apply IH | exact IHch].
Qed.

Lemma unique_names_children (ch : list node) :
  fold_right (λ c rest, unique_names_node c ∧ rest) True ch
  ↔ Forall unique_names_node ch.
Proof.
  induction ch as [|c ch IH]; simpl; [by split; [constructor|]|].
  rewrite Forall_cons. by rewrite IH.
Qed.

Lemma elem_of_walk_children (f : node → list (path * list node))
    (ch : list node) x :
  x ∈ concat (map f ch) ↔ ∃ c, c ∈ ch ∧ x ∈ f c.
Proof.
  induction ch as [|c ch IH]; simpl.
  - split; [intros H; by apply elem_of_nil in H|].
    intros (c & Hc & _). by apply elem_of_nil in Hc.
  - rewrite elem_of_app, IH. split.
    + intros [Hx|(c' & Hc' & Hx)].
      * exists c. split; [apply elem_of_cons; by left | done].
      * exists c'. split; [apply elem_of_cons; by right | done].
    + intros (c' & Hc' & Hx). apply elem_of_cons in Hc' as [->|Hc'].
      * by left.
      * right. eauto.
Qed.

(** The paths of the walk of a node lie under the node. *)
Lemma walk_node_under n : ∀ (rel p : path) its,
  (p, its) ∈ walk_node rel n → ∃ k, p = rel ++ node_name n :: k.
Proof.
  induction n as [nm d|nm ch IH] using node_ind'; intros rel p its Hin.
  { by apply elem_of_nil in Hin. }
  simpl in Hin. apply elem_of_cons in Hin as [[= -> ->]|Hin].
  { by exists []. }
  apply elem_of_walk_children in Hin as (c & Hc & Hin).
  rewrite Forall_forall in IH.
  destruct (IH c Hc _ _ _ Hin) as [k ->].
  exists (node_name c :: k). simpl. by rewrite <- app_assoc.
Qed.

(** The entries of a walked directory have distinct names. *)
Lemma walk_node_names n : ∀ (rel p : path) its,
  unique_names_node n → (p, its) ∈ walk_node rel n →
  NoDup (node_name <$> its).
Proof.
  induction n as [nm d|nm ch IH] using node_ind'; intros rel p its Hu Hin.
  { by apply elem_of_nil in Hin. }
  simpl in Hin, Hu. destruct Hu as [Hnd Hch].
  apply elem_of_cons in Hin as [[= -> ->]|Hin]; [done|].
  apply elem_of_walk_children in Hin as (c & Hc & Hin).
  rewrite Forall_forall in IH. apply unique_names_children in Hch.
  rewrite Forall_forall in Hch. by eapply IH; [done | apply Hch | done].
Qed.

(** The walks of children with distinct names do not meet. *)
Lemma walk_children_NoDup (here : path) (ch : list node) :
  NoDup (node_name <$> ch) →
  Forall (λ c, NoDup (walk_node here c).*1) ch →
  NoDup (concat (map (walk_node here) ch)).*1.
Proof.
  induction ch as [|c ch IH]; intros Hnd Hall; [constructor|].
  rewrite fmap_cons in Hnd. apply NoDup_cons in Hnd as [Hc Hnd].
  apply Forall_cons in Hall as [Hwc Hall].
  simpl. rewrite fmap_app. apply NoDup_app. split_and!; [done| |by apply IH].
  intros p Hp Hp'.
  apply list_elem_of_fmap in Hp as ([p1 i1] & -> & Hp).
  apply list_elem_of_fmap in Hp' as ([p2 i2] & Heq & Hp'). simpl in Heq.
  apply elem_of_walk_children in Hp' as (c' & Hc' & Hp').
  apply walk_node_under in Hp as [k1 ->].
  apply walk_node_under in Hp' as [k2 ->].
  apply app_inv_head in Heq. injection Heq as Heq _.
  apply Hc. rewrite Heq. apply list_elem_of_fmap. eauto.
Qed.

Lemma walk_node_NoDup n : ∀ rel : path,
  unique_names_node n → NoDup (walk_node rel n).*1.
Proof.
  induction n as [nm d|nm ch IH] using node_ind'; intros rel Hu;
    [constructor|].
  simpl in *. destruct Hu as [Hnd Hch]. apply unique_names_children in Hch.
  apply NoDup_cons. split.
  - intros Hin. apply list_elem_of_fmap in Hin as ([p its] & Heq & Hin).
    simpl in Heq. apply elem_of_walk_children in Hin as (c & Hc & Hin).
    apply walk_node_under in Hin as [k ->].
    apply (f_equal length) in Heq. rewrite !length_app in Heq.
    simpl in Heq. lia.
  - apply walk_children_NoDup; [done|].
    rewrite Forall_forall in IH, Hch. apply Forall_forall.
    intros c Hc. by apply IH, Hch.
Qed.

Lemma os_walk_NoDup top : unique_names top → NoDup (os_walk top).*1.
Proof.
  intros [Hnd Hch]. apply unique_names_children in Hch.
  unfold os_walk. rewrite fmap_cons. apply NoDup_cons. split.
  - intros Hin. apply list_elem_of_fmap in Hin as ([p its] & Heq & Hin).
    simpl in Heq. apply elem_of_walk_children in Hin as (c & Hc & Hin).
    apply walk_node_under in Hin as [k ->]. done.
  - apply walk_children_NoDup; [done|].
    rewrite Forall_forall in Hch. apply Forall_forall.
    intros c Hc. by apply walk_node_NoDup, Hch.
Qed.

Lemma os_walk_names top rel its :
  unique_names top → (rel, its) ∈ os_walk top → NoDup (node_name <$> its).
Proof.
  intros [Hnd Hch] Hin. apply unique_names_children in Hch.
  apply elem_of_cons in Hin as [[= -> ->]|Hin]; [done|].
  apply elem_of_walk_children in Hin as (c & Hc & Hin).
  rewrite Forall_forall in Hch. by eapply walk_node_names; [apply Hch|].
Qed.

(** A subdirectory of a walked directory is walked. *)
Lemma walk_node_child n : ∀ (rel p : path) its nm ch,
  (p, its) ∈ walk_node rel n → Dir nm ch ∈ its →
  (p ++ [nm], ch) ∈ walk_node rel n.
Proof.
  induction n as [nm0 d|nm0 ch0 IH] using node_ind';
    intros rel p its nm ch Hin Hd.
  { by apply elem_of_nil in Hin. }
  simpl in *. apply elem_of_cons. right. apply elem_of_walk_children.
  apply elem_of_cons in Hin as [[= -> ->]|Hin].
  - exists (Dir nm ch). split; [done|]. simpl. apply elem_of_cons. by left.
  - apply elem_of_walk_children in Hin as (c & Hc & Hin).
    exists c. split; [done|]. rewrite Forall_forall in IH. by eapply IH.
Qed.

Lemma os_walk_child top (rel : path) its nm ch :
  (rel, its) ∈ os_walk top → Dir nm ch ∈ its →
  (rel ++ [nm], ch) ∈ os_walk top.
Proof.
  intros Hin Hd. unfold os_walk in *. apply elem_of_cons. right.
  apply elem_of_walk_children.
  apply elem_of_cons in Hin as [[= -> ->]|Hin].
  - exists (Dir nm ch). split; [done|]. simpl. apply elem_of_cons. by left.
  - apply elem_of_walk_children in Hin as (c & Hc & Hin).
    exists c. split; [done|]. by eapply walk_node_child.
Qed.

End WalkFacts.

(** ** No attempt twice *)

Section AttemptsOnce.

Variable self : FastSiteGenerator.

Lemma doc_files_sublist (items : list node) :
  doc_files items `sublist_of` (node_name <$> items).
Proof.
  unfold doc_files, files_of.
  induction items as [|[nm d|nm ch] items IH]; simpl; [constructor| |].
  - destruct (negb (startswith nm ".") && has_doc_extension nm); simpl.
    + by apply sublist_skip.
    + by apply sublist_cons.
  - by apply sublist_cons.
Qed.

Lemma due_attempts_dir item a :
  a ∈ due_attempts self item → attempt_dir a = item.1.
Proof.
  unfold due_attempts. destruct (skipped self item.1).
  { intros H. by apply elem_of_nil in H. }
  intros H. apply elem_of_app in H as [H|H].
  - apply list_elem_of_fmap in H as (f & -> & _). simpl.
    by rewrite rel_file_path_of_snoc, parent_snoc.
  - by apply list_elem_of_singleton in H as ->.
Qed.

Lemma due_attempts_NoDup item :
  NoDup (node_name <$> item.2) → NoDup (due_attempts self item).
Proof.
  intros Hnd. unfold due_attempts. destruct (skipped self item.1); [constructor|].
  apply NoDup_app. split_and!.
  - apply NoDup_fmap_2.
    + intros f1 f2 H. simpl in H. injection H as H.
      rewrite !rel_file_path_of_snoc in H. by apply app_inj_tail in H as [_ ?].
    + eapply sublist_NoDup; [done | apply doc_files_sublist].
  - intros a Ha Hi. apply list_elem_of_fmap in Ha as (f & -> & _).
    by apply list_elem_of_singleton in Hi.
  - apply NoDup_singleton.
Qed.

Lemma walk_attempts_NoDup (items : list (path * list node)) :
  NoDup items.*1 →
  Forall (λ item, NoDup (node_name <$> item.2)) items →
  NoDup (concat (due_attempts self <$> items)).
Proof.
  induction items as [|item items IH]; intros Hnd Hall; [constructor|].
  rewrite fmap_cons in Hnd. apply NoDup_cons in Hnd as [Hitem Hnd].
  apply Forall_cons in Hall as [Hnames Hall]. simpl.
  apply NoDup_app. split_and!; [by apply due_attempts_NoDup| |by apply IH].
  intros a Ha Ha'. apply Hitem.
  apply due_attempts_dir in Ha.
  assert (∃ it, it ∈ items ∧ a ∈ due_attempts self it) as (it & Hit & Hin).
  { clear -Ha'. induction items as [|it items IH]; simpl in Ha'.
    - by apply elem_of_nil in Ha'.
    - apply elem_of_app in Ha' as [H|H].
      + exists it. split; [apply elem_of_cons; by left | done].
      + destruct (IH H) as (it' & ? & ?). exists it'.
        split; [apply elem_of_cons; by right | done]. }
  apply due_attempts_dir in Hin. rewrite <- Ha, Hin.
  apply list_elem_of_fmap. eauto.
Qed.

End AttemptsOnce.

(** X8: in a tree whose directories have entries with pairwise
    distinct names, as in any file system, the walk comes to every
    directory once, and with each subdirectory of a directory it comes
    to; so no run attempts the page of a file or the index of a
    directory twice. *)
Theorem no_attempt_twice (env : environment) (self : FastSiteGenerator)
    (top : list node) (prior : gmap path entry) :
  unique_names top →
  NoDup (os_walk top).*1
  ∧ (∀ (rel : path) items nm ch,
       (rel, items) ∈ os_walk top → Dir nm ch ∈ items →
       (rel ++ [nm], ch) ∈ os_walk top)
  ∧ NoDup (attempt_of <$> trace (final (generate_site env self top prior))).
Proof.
  intros Hu. pose proof (os_walk_NoDup top Hu) as Hnd.
  split_and!; [done | apply os_walk_child |].
  unfold generate_site.
  destruct (walk_loop_attempts env self (os_walk top)
              {| fs := purged prior; trace := [] |}) as (n & _ & -> & _).
  simpl. apply walk_attempts_NoDup.
  - rewrite fmap_take. eapply sublist_NoDup; [done | apply sublist_take].
  - apply Forall_forall. intros [rel its] Hin. simpl.
    apply (os_walk_names top rel its Hu).
    apply elem_of_take in Hin as (i & Hi & _). by eapply list_elem_of_lookup_2.
Qed.

Lemma no_attempt_twice_witness :
  unique_names sample_guide ∧
  NoDup (os_walk sample_guide).*1 ∧
  NoDup (attempt_of <$> trace (final (generate_site sample_env sample_generator
                                        sample_guide ∅))).
Proof.
  assert (Hu : unique_names sample_guide).
  { unfold unique_names, sample_guide. simpl. split_and!; try done.
    - apply (bool_decide_unpack (NoDup ["README.md"; "guide"])). by vm_compute.
    - apply (bool_decide_unpack (NoDup ["setup.md"; "usage.txt"])). by vm_compute. }
  destruct (no_attempt_twice sample_env sample_generator sample_guide ∅ Hu)
    as (H1 & _ & H3).
  by split_and!.
Defined.

(** ** What the pages hold in the end *)

Section Contents.

Variable env : environment.
Variable self : FastSiteGenerator.

Lemma os_walk_plain top :
  no_page_named_dirs top →
  Forall (λ item, skipped self item.1 = false → Forall plain_segment item.1)
         (os_walk top).
Proof.
  intros Hdirs. unfold no_page_named_dirs in Hdirs.
  eapply Forall_impl; [exact Hdirs|].
  intros [rel its] Hhtml Hskip. simpl in *.
  unfold skipped in Hskip. apply orb_false_iff in Hskip as [Hname _].
  apply skip_by_name_false in Hname.
  rewrite Forall_forall in Hhtml, Hname. apply Forall_forall.
  intros seg Hseg. split; [by apply Hname | by apply Hhtml].
Qed.

Lemma walk_loop_app l1 l2 w :
  walk_loop env self (l1 ++ l2) w
  = match walk_loop env self l1 w with
    | Completed w1 => walk_loop env self l2 w1
    | Aborted w1 e => Aborted w1 e
    end.
Proof.
  revert w. induction l1 as [|item l1 IH]; intros w; [done|].
  rewrite <- app_comm_cons, !walk_loop_cons.
  by destruct (visit env self w item).
Qed.

(** *** A step writes only into its own directory *)

Lemma process_file_frame rel w f (p : path) e :
  fs w !! p = Some e → (∀ x, p ≠ rel ++ [x]) →
  fs (process_file env self rel w f) !! p = Some e.
Proof.
  intros Hp Hne. destruct f as [file data].
  destruct (process_file_cases env self rel w file data)
    as [[_ ->]|(_ & _ & [(page & m & _ & Hw & ->)|(e' & _ & ->)])];
    [done| |done].
  apply write_text_inv in Hw as (-> & _ & _). simpl.
  rewrite lookup_insert_ne; [done|]. intros H. by apply (Hne (stem file +:+ ".html")).
Qed.

Lemma file_loop_frame rel files (p : path) e : ∀ w,
  fs w !! p = Some e → (∀ x, p ≠ rel ++ [x]) →
  fs (fold_left (process_file env self rel) files w) !! p = Some e.
Proof.
  induction files as [|f files IH]; intros w Hp Hne; [done|].
  cbn [fold_left]. apply IH; [|done]. by apply process_file_frame.
Qed.

Lemma write_index_frame rel items w (p : path) e :
  fs w !! p = Some e → p ≠ index_target rel →
  fs (write_index env self rel items w) !! p = Some e.
Proof.
  intros Hp Hne. unfold write_index.
  destruct (write_text env (fs w) _ _) as [m|e'] eqn:Hw; [|done].
  apply write_text_inv in Hw as (-> & _ & _). simpl.
  by rewrite lookup_insert_ne.
Qed.

Lemma visit_frame w w' rel items (p : path) e :
  visit env self w (rel, items) = Ok w' →
  fs w !! p = Some e → (∀ x, p ≠ rel ++ [x]) →
  fs w' !! p = Some e.
Proof.
  unfold visit. intros Hv Hp Hne.
  destruct (skip_by_name self rel); [by injection Hv as <-|].
  destruct (skip_output self _); [by injection Hv as <-|].
  destruct (mkdir_parents _ _ _) as [m|e'] eqn:Hmk; [|done].
  simpl in Hv. injection Hv as <-.
  destruct (mkdir_parents_inv _ _ _ _ Hmk) as (_ & Hkeep & _).
  apply write_index_frame; [|apply Hne].
  apply file_loop_frame; [|done]. simpl. by apply Hkeep.
Qed.

Lemma walk_loop_frame items (rel : path) x e : ∀ w w',
  walk_loop env self items w = Completed w' →
  Forall (λ item, item.1 ≠ rel) items →
  fs w !! (rel ++ [x]) = Some e →
  fs w' !! (rel ++ [x]) = Some e.
Proof.
  induction items as [|[r its] items IH]; intros w w' Hw Hne Hp.
  { by injection Hw as <-. }
  rewrite walk_loop_cons in Hw.
  destruct (visit env self w (r, its)) as [w1|e'] eqn:Hv; [|done].
  apply Forall_cons in Hne as [Hr Hne]. simpl in Hr.
  eapply IH; [exact Hw | done |].
  eapply visit_frame; [exact Hv | done |].
  intros y H. apply app_inj_tail in H as [-> _]. done.
Qed.

(** *** The pages of one directory *)

(** Once the page of a file is in place, the other files of the
    directory leave it there, when none of them shares its stem. *)
Lemma file_loop_keeps_page rel files file data page : ∀ w,
  shaped plain_segment (fs w) → Forall plain_segment rel →
  fs w !! rel = Some EDir →
  page_result env self rel file data = Ok page →
  (∀ f d, (f, d) ∈ files →
     startswith f "." = false → has_doc_extension f = true →
     stem f = stem file → f = file ∧ d = data) →
  fs w !! page_target rel file = Some (EFile page) →
  fs (fold_left (process_file env self rel) files w) !! page_target rel file
  = Some (EFile page).
Proof.
  induction files as [|[f d] files IH]; intros w Hsh Hrel Hdir Hres Huniq Hp;
    [done|].
  cbn [fold_left].
  apply IH; [by apply shaped_process_file | done | | done | |].
  - by apply (extends_process_file env self rel w (f, d)).
  - intros f' d' Hin. apply Huniq, elem_of_cons. by right.
  - destruct (process_file_cases env self rel w f d)
      as [[_ ->]|(Hv & Hx & _)]; [done|].
    rewrite process_file_result by done.
    destruct (page_result env self rel f d) as [page'|e'] eqn:Hres'; [|done].
    simpl. destruct (decide (page_target rel f = page_target rel file)) as [Heq|Hne].
    + rewrite Heq, lookup_insert_eq.
      apply page_target_eq in Heq as [_ Hstem].
      destruct (Huniq f d) as [-> ->]; [apply elem_of_cons; by left | done..|].
      congruence.
    + by rewrite lookup_insert_ne.
Qed.

Lemma file_loop_page rel files file data page : ∀ w,
  shaped plain_segment (fs w) → Forall plain_segment rel →
  fs w !! rel = Some EDir →
  (file, data) ∈ files →
  startswith file "." = false → has_doc_extension file = true →
  page_result env self rel file data = Ok page →
  (∀ f d, (f, d) ∈ files →
     startswith f "." = false → has_doc_extension f = true →
     stem f = stem file → f = file ∧ d = data) →
  fs (fold_left (process_file env self rel) files w) !! page_target rel file
  = Some (EFile page).
Proof.
  induction files as [|[f d] files IH];
    intros w Hsh Hrel Hdir Hin Hvis Hext Hres Huniq.
  { by apply elem_of_nil in Hin. }
  cbn [fold_left].
  assert (Hsh' : shaped plain_segment (fs (process_file env self rel w (f, d))))
    by (by apply shaped_process_file).
  assert (Hdir' : fs (process_file env self rel w (f, d)) !! rel = Some EDir)
    by (by apply (extends_process_file env self rel w (f, d))).
  assert (Huniq' : ∀ f' d', (f', d') ∈ files →
            startswith f' "." = false → has_doc_extension f' = true →
            stem f' = stem file → f' = file ∧ d' = data).
  { intros f' d' Hin'. apply Huniq, elem_of_cons. by right. }
  apply elem_of_cons in Hin as [[= -> ->]|Hin]; [|by apply IH].
  apply (file_loop_keeps_page rel files f d page); [done..|].
  rewrite process_file_result by done. rewrite Hres. simpl.
  apply lookup_insert_eq.
Qed.

Lemma visit_contents w rel items :
  shaped plain_segment (fs w) → Forall plain_segment rel →
  skipped self rel = false →
  ∃ w', visit env self w (rel, items) = Ok w'
    ∧ (write_error env (index_target rel) = None →
       fs w' !! index_target rel
       = Some (EFile (create_directory_listing env self items rel)))
    ∧ (∀ file data page,
         (file, data) ∈ files_of items →
         startswith file "." = false → has_doc_extension file = true →
         page_result env self rel file data = Ok page →
         stem file ≠ "index" →
         (∀ f d, (f, d) ∈ files_of items →
            startswith f "." = false → has_doc_extension f = true →
            stem f = stem file → f = file ∧ d = data) →
         fs w' !! page_target rel file = Some (EFile page)).
Proof.
  intros Hsh Hrel Hskip. unfold visit. unfold skipped in Hskip.
  apply orb_false_iff in Hskip as [-> ->].
  destruct (mkdir_parents_succeeds (length rel) (fs w) rel) as [m Hmk];
    [done | by destruct Hsh | |].
  { intros q c Hq. by eapply shaped_no_file_on_path. }
  rewrite Hmk. simpl. eexists. split; [done|].
  destruct (mkdir_parents_inv _ _ _ _ Hmk) as (Hdir & _ & _).
  pose (w1 := {| fs := m; trace := trace w |}).
  assert (Hsh1 : shaped plain_segment (fs w1)) by (by eapply shaped_mkdir).
  pose (w2 := fold_left (process_file env self rel) (files_of items) w1).
  assert (Hsh2 : shaped plain_segment (fs w2)) by (by apply shaped_file_loop).
  assert (Hdir2 : fs w2 !! rel = Some EDir).
  { by apply (extends_file_loop env self rel (files_of items) w1). }
  fold w1. fold w2. rewrite write_index_result by done. split.
  - intros Hwe. unfold index_result. rewrite Hwe. simpl.
    apply lookup_insert_eq.
  - intros file data page Hin Hvis Hext Hres Hidx Huniq.
    assert (Hp : fs w2 !! page_target rel file = Some (EFile page)).
    { by apply (file_loop_page rel (files_of items) file data page w1). }
    destruct (index_result env self rel items); [|done]. simpl.
    rewrite lookup_insert_ne; [done|].
    intros Heq. symmetry in Heq. by apply page_index_target_eq in Heq as [_ ?].
Qed.

End Contents.

(** X9: in a tree where no directory is named like a page and the
    walk comes to each directory once, the run completes and leaves,
    for every directory that is not skipped, its listing in
    index.html (when that write goes through), and for every file
    whose attempt succeeds, whose stem is not "index" and is shared
    with no other documentation file of the directory, the rendered
    page of exactly that file. *)
Theorem output_pages_hold_their_sources (env : environment)
    (self : FastSiteGenerator) (top : list node) (prior : gmap path entry)
    (rel : path) (items : list node) :
  no_page_named_dirs top → NoDup (os_walk top).*1 →
  (rel, items) ∈ os_walk top → skipped self rel = false →
  ∃ w, generate_site env self top prior = Completed w
    ∧ (write_error env (index_target rel) = None →
       fs w !! index_target rel
       = Some (EFile (create_directory_listing env self items rel)))
    ∧ (∀ file data page,
         (file, data) ∈ files_of items →
         startswith file "." = false → has_doc_extension file = true →
         page_result env self rel file data = Ok page →
         stem file ≠ "index" →
         (∀ f d, (f, d) ∈ files_of items →
            startswith f "." = false → has_doc_extension f = true →
            stem f = stem file → f = file ∧ d = data) →
         fs w !! page_target rel file = Some (EFile page)).
Proof.
  intros Hdirs Hnd Hin Hskip.
  pose proof (os_walk_plain self top Hdirs) as Hplain.
  apply list_elem_of_split in Hin as (l1 & l2 & Hsplit).
  rewrite Hsplit in Hnd, Hplain.
  rewrite fmap_app, fmap_cons in Hnd. simpl in Hnd.
  apply NoDup_app in Hnd as (_ & _ & Hnd2).
  apply NoDup_cons in Hnd2 as [Hrel2 _].
  apply Forall_app in Hplain as [Hp1 Hp2].
  apply Forall_cons in Hp2 as [Hprel Hp2]. simpl in Hprel.
  unfold generate_site. rewrite Hsplit, walk_loop_app.
  pose (w0 := {| fs := purged prior; trace := [] |}).
  assert (Hsh0 : shaped plain_segment (fs w0)) by apply shaped_purged.
  fold w0.
  destruct (walk_loop_done env self l1 w0 Hsh0 Hp1) as (w1 & Hw1 & _ & _).
  assert (Hsh1 : shaped plain_segment (fs w1)).
  { pose proof (shaped_walk_loop env self plain_segment l1 w0 Hsh0 Hp1) as H.
    by rewrite Hw1 in H. }
  rewrite Hw1, walk_loop_cons.
  destruct (visit_contents env self w1 rel items Hsh1 (Hprel Hskip) Hskip)
    as (w2 & Hv & Hidx & Hpages).
  rewrite Hv.
  assert (Hsh2 : shaped plain_segment (fs w2)).
  { eapply shaped_visit; [exact Hsh1 | | exact Hv]. auto. }
  destruct (walk_loop_done env self l2 w2 Hsh2 Hp2) as (w & Hw & _ & _).
  exists w. split; [done|].
  assert (Hne : Forall (λ item : path * list node, item.1 ≠ rel) l2).
  { apply Forall_forall. intros it Hit Heq. apply Hrel2.
    rewrite <- Heq. apply list_elem_of_fmap. eauto. }
  split.
  - intros Hwe. unfold index_target, joinpath.
    eapply walk_loop_frame; [exact Hw | done |]. by apply Hidx.
  - intros file data page Hf Hvis Hext Hres Hstem Huniq.
    unfold page_target, joinpath.
    eapply walk_loop_frame; [exact Hw | done |]. by eapply Hpages.
Qed.

Lemma output_pages_hold_their_sources_witness :
  no_page_named_dirs sample_guide ∧
  NoDup (os_walk sample_guide).*1 ∧
  skipped sample_generator ["guide"] = false ∧
  ∃ w, generate_site sample_env sample_generator sample_guide ∅ = Completed w
    ∧ fs w !! ["guide"; "index.html"]
      = Some (EFile (create_directory_listing sample_env sample_generator
                       [File "setup.md" (Ok "# Setup");
                        File "usage.txt" (Ok "Usage")] ["guide"])).
Proof.
  assert (Hd : no_page_named_dirs sample_guide).
  { unfold no_page_named_dirs. vm_compute. repeat constructor. }
  assert (Hnd : NoDup (os_walk sample_guide).*1).
  { apply (bool_decide_unpack (NoDup (os_walk sample_guide).*1)). by vm_compute. }
  split_and!; [exact Hd | exact Hnd | reflexivity |].
  destruct (output_pages_hold_their_sources sample_env sample_generator
              sample_guide ∅ ["guide"]
              [File "setup.md" (Ok "# Setup"); File "usage.txt" (Ok "Usage")]
              Hd Hnd) as (w & Hw & Hidx & _).
  - apply elem_of_cons. right. apply elem_of_cons. by left.
  - reflexivity.
  - exists w. split; [exact Hw|]. by apply Hidx.
Defined.

(** ** Where the links lead *)

Section Links.

Lemma resolve_up n : ∀ rel : path,
  n ≤ length rel →
  resolve rel (replicate n ".." ++ ["index.html"])
  = Some (take (length rel - n) rel ++ ["index.html"]).
Proof.
  induction n as [|n IH]; intros rel Hn.
  - simpl. by rewrite Nat.sub_0_r, firstn_all.
  - destruct rel as [|x rel _] using rev_ind; [simpl in Hn; lia|].
    rewrite length_app in Hn. simpl in Hn.
    change (replicate (S n) ".." ++ ["index.html"])
      with (".." :: (replicate n ".." ++ ["index.html"])).
    cbn [resolve]. rewrite decide_False by done. rewrite decide_True by done.
    destruct (rel ++ [x]) as [|y l] eqn:E; [by destruct rel|].
    rewrite <- E, parent_snoc, IH by lia.
    rewrite length_app. simpl. do 2 f_equal.
    replace (length rel + 1 - S n) with (length rel - n) by lia.
    by rewrite take_app_le by lia.
Qed.

Lemma resolve_name (rel : path) seg rest :
  startswith seg "." = false →
  resolve rel (seg :: rest) = resolve (rel ++ [seg]) rest.
Proof.
  intros Hvis. cbn [resolve].
  rewrite decide_False by (by intros ->).
  by rewrite decide_False by (by intros ->).
Qed.

Lemma home_link_resolves (rel : path) :
  resolve rel (link_segments (get_relative_path_to_root rel +:+ "/index.html"))
  = Some ["index.html"].
Proof.
  rewrite get_relative_path_to_root_prefix.
  destruct rel as [|x rel]; [done|].
  unfold root_relative_prefix. cbn [length]. rewrite up_link_segments.
  rewrite resolve_up by done. by rewrite Nat.sub_diag.
Qed.

Lemma ancestor_link_resolves (rel : path) i :
  i < length rel →
  resolve rel (link_segments (ancestor_link (length rel) i))
  = Some (take (S i) rel ++ ["index.html"]).
Proof.
  intros Hi. unfold ancestor_link.
  destruct (length rel - 1 - i) as [|m] eqn:Hm.
  - change (link_segments "index.html") with ["index.html"].
    rewrite resolve_name by done. simpl.
    by rewrite take_ge by lia.
  - rewrite up_link_segments, resolve_up by lia.
    do 3 f_equal. lia.
Qed.

End Links.



(** ** Listings and the walk *)

Section ListingLinks.

Variable env : environment.
Variable self : FastSiteGenerator.

(** A listed subdirectory of a visited directory is visited. *)
Lemma child_not_skipped (rel : path) nm :
  skipped self rel = false →
  startswith nm "." = false → nm ≠ name (output_dir self) →
  skipped self (rel ++ [nm]) = false.
Proof.
  intros Hskip Hvis Hne.
  destruct (skipped self (rel ++ [nm])) eqn:Hchild; [|done].
  assert (skipped self rel = true); [|congruence].
  apply skipped_iff. apply skipped_iff in Hchild as [(seg & Hin & Hseg)|Hpre].
  - apply elem_of_app in Hin as [Hin|Hin]; [left; eauto|].
    apply list_elem_of_singleton in Hin as ->.
    destruct Hseg; congruence.
  - unfold joinpath in *. rewrite app_assoc in Hpre.
    apply prefix_of_snoc in Hpre as [Heq|Hpre]; [|by right].
    destruct Hne. unfold name. by rewrite Heq, List.last_last.
Qed.

End ListingLinks.



(** ** Written targets mirror their sources *)

Section Mirrors.

Variable env : environment.
Variable self : FastSiteGenerator.

Lemma walk_loop_mirrors_sources items : ∀ w,
  Forall mirrors_source (trace w) →
  Forall mirrors_source (trace (final (walk_loop env self items w))).
Proof.
  induction items as [|[rel its] items IH]; intros w Hw; [done|].
  rewrite walk_loop_cons.
  destruct (visit env self w (rel, its)) as [w'|e] eqn:Hv; [|done].
  apply IH. revert Hv. unfold visit.
  destruct (skip_by_name self rel); [by intros [= <-]|].
  destruct (skip_output self _); [by intros [= <-]|].
  destruct (mkdir_parents _ _ _) as [m|e]; [|done]. simpl. intros [= <-].
  assert (Hloop : ∀ files w0, Forall mirrors_source (trace w0) →
            Forall mirrors_source
              (trace (fold_left (process_file env self rel) files w0))).
  { induction files as [|[file data] files IHf]; intros w0 Hw0; [done|].
    cbn [fold_left]. apply IHf.
    destruct (process_file_cases env self rel w0 file data)
      as [[_ ->]|(_ & _ & [(page & m' & _ & _ & ->)|(e & _ & ->)])]; [done| |].
    - simpl. apply Forall_app. split; [done|]. apply Forall_singleton. simpl.
      rewrite rel_file_path_of_snoc, parent_snoc. unfold name.
      by rewrite List.last_last.
    - simpl. apply Forall_app. split; [done|]. by apply Forall_singleton. }
  unfold write_index. destruct (write_text _ _ _ _); simpl;
    (apply Forall_app; split; [by apply Hloop | by apply Forall_singleton]).
Qed.

End Mirrors.

(** X12: every page a run reports as written was written at the
    mirror of its source: the page of a file at the path of the file
    with the file name replaced by its stem and ".html", the index of
    a directory at "index.html" under the path of the directory. *)
Theorem written_targets_mirror_sources (env : environment)
    (self : FastSiteGenerator) (top : list node) (prior : gmap path entry)
    (ev : event) :
  ev ∈ trace (final (generate_site env self top prior)) →
  match ev with
  | PageWritten rel_file target =>
      target = parent rel_file ++ [stem (name rel_file) +:+ ".html"]
  | IndexWritten rel target => target = rel ++ ["index.html"]
  | PageFailed _ _ | IndexFailed _ _ => True
  end.
Proof.
  intros Hev.
  assert (H : Forall mirrors_source
                (trace (final (generate_site env self top prior)))).
  { unfold generate_site. by apply walk_loop_mirrors_sources. }
  rewrite Forall_forall in H. specialize (H ev Hev). by destruct ev.
Qed.

Lemma written_targets_mirror_sources_witness :
  PageWritten ["guide"; "usage.txt"] ["guide"; "usage.html"]
    ∈ trace (final (generate_site sample_env sample_generator sample_guide ∅))
  ∧ ["guide"; "usage.html"]
    = parent ["guide"; "usage.txt"] ++ [stem (name ["guide"; "usage.txt"]) +:+ ".html"].
Proof.
  assert (H : PageWritten ["guide"; "usage.txt"] ["guide"; "usage.html"]
              ∈ trace (final (generate_site sample_env sample_generator
                                sample_guide ∅))).
  { apply (list_elem_of_lookup_2 _ 3). by vm_compute. }
  split; [exact H|].
  exact (written_targets_mirror_sources sample_env sample_generator
           sample_guide ∅ _ H).
Defined.

(** ** The structure of the output and the clock *)

Section Structure.

Variables env1 env2 : environment.
Variable self : FastSiteGenerator.

Hypothesis same_convert :
  ∀ exts text, convert env1 exts text = convert env2 exts text.
Hypothesis same_write_error : ∀ p, write_error env1 p = write_error env2 p.

Lemma same_kind_cases (m1 m2 : gmap path entry) (p : path) :
  (∀ q : path, is_file <$> m1 !! q = is_file <$> m2 !! q) →
  (∃ c1 c2, m1 !! p = Some (EFile c1) ∧ m2 !! p = Some (EFile c2))
  ∨ (m1 !! p = Some EDir ∧ m2 !! p = Some EDir)
  ∨ (m1 !! p = None ∧ m2 !! p = None).
Proof.
  intros H. specialize (H p).
  destruct (m1 !! p) as [[c1|]|], (m2 !! p) as [[c2|]|]; simplify_eq/=; eauto.
Qed.

Lemma same_kind_insert (m1 m2 : gmap path entry) (p : path) e1 e2 :
  (∀ q : path, is_file <$> m1 !! q = is_file <$> m2 !! q) →
  is_file e1 = is_file e2 →
  ∀ q : path, is_file <$> <[p := e1]> m1 !! q = is_file <$> <[p := e2]> m2 !! q.
Proof.
  intros H He q. rewrite !lookup_insert. case_decide; [simpl; by rewrite He|].
  apply H.
Qed.

Lemma mkdir_same_structure (n : nat) : ∀ (m1 m2 : gmap path entry) (p : path),
  (∀ q : path, is_file <$> m1 !! q = is_file <$> m2 !! q) →
  match mkdir_parents n m1 p, mkdir_parents n m2 p with
  | Ok m1', Ok m2' => ∀ q : path, is_file <$> m1' !! q = is_file <$> m2' !! q
  | Raise e1, Raise e2 => e1 = e2
  | _, _ => False
  end.
Proof.
  induction n as [|n IH]; intros m1 m2 p H; simpl;
    destruct (same_kind_cases m1 m2 p H)
      as [(c1 & c2 & -> & ->)|[[-> ->]|[-> ->]]]; try done;
    destruct (same_kind_cases m1 m2 (parent p) H)
      as [(c1 & c2 & -> & ->)|[[-> ->]|[-> ->]]]; try done;
    try (by apply same_kind_insert).
  specialize (IH m1 m2 (parent p) H).
  destruct (mkdir_parents n m1 (parent p)), (mkdir_parents n m2 (parent p));
    simpl; try done.
  by apply same_kind_insert.
Qed.

Lemma write_same_structure (m1 m2 : gmap path entry) target c1 c2 :
  (∀ q : path, is_file <$> m1 !! q = is_file <$> m2 !! q) →
  match write_text env1 m1 target c1, write_text env2 m2 target c2 with
  | Ok m1', Ok m2' => ∀ q : path, is_file <$> m1' !! q = is_file <$> m2' !! q
  | Raise e1, Raise e2 => e1 = e2
  | _, _ => False
  end.
Proof.
  intros H. unfold write_text. rewrite same_write_error.
  destruct (write_error env2 target); [done|].
  destruct (same_kind_cases m1 m2 target H)
    as [(d1 & d2 & -> & ->)|[[-> ->]|[-> ->]]]; try done;
    destruct (same_kind_cases m1 m2 (parent target) H)
      as [(b1 & b2 & -> & ->)|[[-> ->]|[-> ->]]]; try done;
    by apply same_kind_insert.
Qed.

Lemma process_markdown_same_outcome data file relf :
  match process_markdown env1 self data file relf,
        process_markdown env2 self data file relf with
  | Ok _, Ok _ => True
  | Raise e1, Raise e2 => e1 = e2
  | _, _ => False
  end.
Proof.
  unfold process_markdown. destruct data as [bytes|e]; simpl; [|done].
  destruct (Utf8.decode Utf8.Ignore bytes) as [text|e]; simpl; [|done].
  rewrite same_convert.
  by destruct (convert env2 (markdown_extensions self) text).
Qed.

Lemma process_file_same_structure rel w1 w2 f :
  same_structure w1 w2 →
  same_structure (process_file env1 self rel w1 f)
                 (process_file env2 self rel w2 f).
Proof.
  intros [Ht Hk]. destruct f as [file data]. unfold process_file.
  destruct (startswith file "."); [done|].
  destruct (has_doc_extension file); [|done].
  pose proof (process_markdown_same_outcome data file
                (rel_file_path_of rel file)) as Hpm.
  destruct (process_markdown env1 self data file _) as [p1|e1],
           (process_markdown env2 self data file _) as [p2|e2];
    simpl; try done.
  - pose proof (write_same_structure (fs w1) (fs w2)
                  (page_target rel file) p1 p2 Hk) as Hw.
    destruct (write_text env1 (fs w1) _ p1), (write_text env2 (fs w2) _ p2);
      try done; split; simpl; congruence.
  - subst e2. split; simpl; congruence.
Qed.

Lemma file_loop_same_structure rel files : ∀ w1 w2,
  same_structure w1 w2 →
  same_structure (fold_left (process_file env1 self rel) files w1)
                 (fold_left (process_file env2 self rel) files w2).
Proof.
  induction files as [|f files IH]; intros w1 w2 H; [done|].
  cbn [fold_left]. by apply IH, process_file_same_structure.
Qed.

Lemma write_index_same_structure rel items w1 w2 :
  same_structure w1 w2 →
  same_structure (write_index env1 self rel items w1)
                 (write_index env2 self rel items w2).
Proof.
  intros [Ht Hk]. unfold write_index.
  pose proof (write_same_structure (fs w1) (fs w2) (index_target rel)
                (create_directory_listing env1 self items rel)
                (create_directory_listing env2 self items rel) Hk) as Hw.
  destruct (write_text env1 (fs w1) _ _), (write_text env2 (fs w2) _ _);
    try done; split; simpl; congruence.
Qed.

Lemma visit_same_structure w1 w2 item :
  same_structure w1 w2 →
  match visit env1 self w1 item, visit env2 self w2 item with
  | Ok w1', Ok w2' => same_structure w1' w2'
  | Raise e1, Raise e2 => e1 = e2
  | _, _ => False
  end.
Proof.
  intros [Ht Hk]. destruct item as [rel items]. unfold visit.
  destruct (skip_by_name self rel); [done|].
  destruct (skip_output self _); [done|].
  pose proof (mkdir_same_structure (length rel) (fs w1) (fs w2) rel Hk) as Hmk.
  destruct (mkdir_parents _ (fs w1) rel) as [m1|e1],
           (mkdir_parents _ (fs w2) rel) as [m2|e2]; simpl; try done.
  apply write_index_same_structure, file_loop_same_structure.
  split; simpl; [done | exact Hmk].
Qed.

Lemma walk_loop_same_structure items : ∀ w1 w2,
  same_structure w1 w2 →
  same_structure (final (walk_loop env1 self items w1))
                 (final (walk_loop env2 self items w2))
  ∧ end_alike (walk_loop env1 self items w1) (walk_loop env2 self items w2).
Proof.
  induction items as [|item items IH]; intros w1 w2 H; [done|].
  rewrite !walk_loop_cons.
  pose proof (visit_same_structure w1 w2 item H) as Hv.
  destruct (visit env1 self w1 item) as [w1'|e1],
           (visit env2 self w2 item) as [w2'|e2]; try done.
  by apply IH.
Qed.

End Structure.

(** X13: the structure of the output does not depend on the clock,
    on the template or on what the output directory held before: two
    runs over the same tree, with the same Markdown engine and the same
    write failures, end alike, report the same events and leave files
    at the same paths and directories at the same paths; only the
    contents of pages can differ. *)
Theorem output_structure_is_reproducible (env1 env2 : environment)
    (self : FastSiteGenerator) (top : list node)
    (prior1 prior2 : gmap path entry) :
  (∀ exts text, convert env1 exts text = convert env2 exts text) →
  (∀ p, write_error env1 p = write_error env2 p) →
  end_alike (generate_site env1 self top prior1)
            (generate_site env2 self top prior2)
  ∧ trace (final (generate_site env1 self top prior1))
    = trace (final (generate_site env2 self top prior2))
  ∧ ∀ p : path,
      is_file <$> fs (final (generate_site env1 self top prior1)) !! p
      = is_file <$> fs (final (generate_site env2 self top prior2)) !! p.
Proof.
  intros Hc Hw. unfold generate_site.
  destruct (walk_loop_same_structure env1 env2 self Hc Hw (os_walk top)
              {| fs := purged prior1; trace := [] |}
              {| fs := purged prior2; trace := [] |}) as [[Ht Hk] He].
  { by split. }
  by split_and!.
Qed.

Lemma output_structure_is_reproducible_witness :
  (∀ exts text, convert sample_env exts text = convert sample_env_later exts text) ∧
  (∀ p, write_error sample_env p = write_error sample_env_later p) ∧
  trace (final (generate_site sample_env sample_generator sample_guide ∅))
  = trace (final (generate_site sample_env_later sample_generator sample_guide
                    {[ ["old.html"] := EFile "stale" ]})) ∧
  fs (final (generate_site sample_env sample_generator sample_guide ∅))
    !! ["guide"; "setup.html"]
  ≠ fs (final (generate_site sample_env_later sample_generator sample_guide
                 {[ ["old.html"] := EFile "stale" ]}))
    !! ["guide"; "setup.html"].
Proof.
  assert (H1 : ∀ exts text,
            convert sample_env exts text = convert sample_env_later exts text)
    by done.
  assert (H2 : ∀ p, write_error sample_env p = write_error sample_env_later p)
    by done.
  destruct (output_structure_is_reproducible sample_env sample_env_later
              sample_generator sample_guide ∅
              {[ ["old.html"] := EFile "stale" ]} H1 H2) as (_ & Ht & _).
  split_and!; [exact H1 | exact H2 | exact Ht |].
  vm_compute. discriminate.
Defined.

(** ** Below a skipped directory *)

(** X14: the walk does not prune what it skips, and need not: the
    exclusion tests look at every segment of the path, so everything
    below a skipped directory is skipped as well, at any depth. Nothing
    is attempted for it and its visit leaves the output untouched. *)
Theorem skipped_directory_hides_subtree (env : environment)
    (self : FastSiteGenerator) (w : world) (rel below : path)
    (items : list node) :
  skipped self rel = true →
  skipped self (rel ++ below) = true
  ∧ due_attempts self (rel ++ below, items) = []
  ∧ visit env self w (rel ++ below, items) = Ok w.
Proof.
  intros Hskip.
  assert (Hsub : skipped self (rel ++ below) = true).
  { apply skipped_iff. apply skipped_iff in Hskip as [(seg & Hin & Hseg)|Hpre].
    - left. exists seg. split; [|done]. apply elem_of_app. by left.
    - right. unfold joinpath in *. rewrite app_assoc.
      etrans; [exact Hpre|]. by apply prefix_app_r. }
  split_and!; [done | |].
  - unfold due_attempts. simpl. by rewrite Hsub.
  - destruct (visit_cases env self w (rel ++ below) items) as [[_ ?]|[? _]];
      [done | congruence].
Qed.

Lemma skipped_directory_hides_subtree_witness :
  skipped sample_generator [".git"] = true ∧
  skipped sample_generator [".git"; "hooks"; "samples"] = true ∧
  skipped sample_generator ["docs"; "guide"] = true.
Proof.
  destruct (skipped_directory_hides_subtree sample_env sample_generator
              {| fs := ∅; trace := [] |} [".git"] ["hooks"; "samples"] []
              eq_refl) as (H1 & _ & _).
  destruct (skipped_directory_hides_subtree sample_env sample_generator
              {| fs := ∅; trace := [] |} ["docs"] ["guide"] [] eq_refl)
    as (H2 & _ & _).
  split_and!; [reflexivity | exact H1 | exact H2].
Defined.
